(** * Warehouse: a catalog of products with two mutually consistent indexes

    A verification development for [Warehouse.h]: the class [Warehouse]
    keeps every product in a [std::unordered_map] keyed by the product id
    and in a [std::multimap] keyed by the producer, and caches in each entry
    of the first the iterator of the corresponding node of the second.

    What the model takes from C++ rather than from the class: a [Product]
    does not change once a [shared_ptr<const Product>] points to it; the
    [assert] is compiled in; allocation does not fail; the steps of threads
    interleave, each step seeing the memory the step before it left. *)

From stdpp Require Import base option list sorting gmap strings.
From Stdlib Require Import ZArith Lia OrdersEx.

Local Open Scope Z_scope.

(** ** [struct Product] *)

Module Product.
Record t : Type := mk
  { id : string;        (* unique id of the product among all products *)
    producer : string;  (* producer of the product *)
    name : string;      (* name of the product *)
    price : N           (* price of the product, [unsigned] *) }.
End Product.

(** ** [std::shared_ptr<const Product>]

    A smart pointer is either empty or the address of a live, constant
    [Product]. Two pointers are equal when they hold the same address,
    whatever the fields of the products they point to. *)

Definition address := positive.
Abbreviation ProductPtr := (option address).

(** ** Results of running code: a value, a failed [assert], or a step that
    the C++ standard leaves undefined (an invalid iterator used, a mutex
    locked twice by its owner). *)

Inductive result (A : Type) : Type :=
  | Ok (a : A)
  | AssertionFailure
  | Undefined.
Arguments Ok {A} a.
Arguments AssertionFailure {A}.
Arguments Undefined {A}.

(** ** [size_t] arithmetic: 64-bit, wraps around *)

Definition SIZE_MAX1 : Z := 2 ^ 64.
Definition size_t_incr (n : Z) : Z := (n + 1) mod SIZE_MAX1.

(** ** [std::string] comparison, as [std::less<std::string>] has it:
    lexicographic on the unsigned values of the characters. *)

Definition string_lt (a b : string) : bool := String.ltb a b.

(** ** [std::multimap<Product::Producer, ProductPtr>]

    A node-based container: the nodes are kept ordered by key, nodes of equal
    keys in the order of their insertion; an iterator designates a node and
    stays valid until that node is erased. *)

Module multimap.

Inductive const_iterator : Type :=
  | singular               (* a value-initialised iterator: designates nothing *)
  | at_node (n : positive) (* the node of this identity *)
  | past_the_end.          (* [end()] *)

#[global] Instance const_iterator_eq_dec : EqDecision const_iterator.
Proof. solve_decision. Defined.

Record node : Type := Node
  { ident : positive;     (* identity of the node: what an iterator holds *)
    first : string;       (* the key *)
    second : ProductPtr   (* the mapped value *) }.

Abbreviation t := (list node).

Definition empty : t := [].

(** The allocator hands out a node distinct from every node of the container. *)
Definition fresh (m : t) : positive :=
  Pos.succ (foldr Pos.max 1%positive (ident <$> m)).

(** Insertion at the upper bound of the key: after every node whose key is
    not greater. *)
Fixpoint insert_upper (n : node) (m : t) : t :=
  match m with
  | [] => [n]
  | x :: m' =>
      if string_lt (first n) (first x) then n :: x :: m'
      else x :: insert_upper n m'
  end.

(** [emplace(key, value)]: always inserts; returns the iterator of the new node. *)
Definition emplace (k : string) (v : ProductPtr) (m : t) : const_iterator * t :=
  let i := fresh m in
  (at_node i, insert_upper (Node i k v) m).

(** A position in the sequence: the nodes from that position on. Its
    iterator is the identity of the node it stands on. *)
Abbreviation cursor := (list node).

Definition iter (c : cursor) : const_iterator :=
  match c with
  | [] => past_the_end
  | x :: _ => at_node (ident x)
  end.

(** [lower_bound(key)]: the first node whose key is not less than [k]. *)
Fixpoint lower_bound (k : string) (m : t) : cursor :=
  match m with
  | [] => []
  | x :: m' => if string_lt (first x) k then lower_bound k m' else x :: m'
  end.

(** [upper_bound(key)]: the first node whose key is greater than [k]. *)
Fixpoint upper_bound (k : string) (m : t) : cursor :=
  match m with
  | [] => []
  | x :: m' => if string_lt k (first x) then x :: m' else upper_bound k m'
  end.

(** [equal_range(key)]: the pair of both bounds. *)
Definition equal_range (k : string) (m : t) : cursor * const_iterator :=
  (lower_bound k m, iter (upper_bound k m)).

(** [erase(iterator)]: the iterator must designate a node of the container. *)
Definition erase (it : const_iterator) (m : t) : option t :=
  match it with
  | at_node i =>
      if decide (i ∈ ident <$> m)
      then Some (filter (λ x, ident x ≠ i) m)
      else None
  | _ => None
  end.

Definition size (m : t) : Z := Z.of_nat (length m).

End multimap.

(** ** [class Warehouse] *)

Module Warehouse.

(** [struct ProductWithMeta { ProductPtr pProduct; Meta meta; }] *)
Record Meta : Type := mkMeta
  { it_productsByProducer : multimap.const_iterator }.

Record ProductWithMeta : Type := mkProductWithMeta
  { pProduct : ProductPtr;
    meta : Meta }.

(** The constructor [ProductWithMeta(ProductPtr)] leaves [meta]
    value-initialised. *)
Definition ProductWithMeta_ctor (_pProduct : ProductPtr) : ProductWithMeta :=
  {| pProduct := _pProduct;
     meta := {| it_productsByProducer := multimap.singular |} |}.

(** The data members. [mMutex] is [true] while the mutex is locked. *)
Record t : Type := mk
  { mMutex : bool;
    mProductsByProducer : multimap.t;
    mProductsWithMetasById : gmap string ProductWithMeta }.

(** A default-constructed warehouse. *)
Definition empty : t :=
  {| mMutex := false;
     mProductsByProducer := multimap.empty;
     mProductsWithMetasById := ∅ |}.

(** *** Code of a member function

    A member function is a tree of steps: it locks or unlocks [mMutex],
    or performs one call on the containers and goes on with what the call
    returned. The steps are the unit of interleaving when several threads
    run member functions at once; run by one thread alone to the end, a
    tree is a function of the state ([run] below). *)

Inductive prog (A : Type) : Type :=
  | Return (a : A)
  | AssertFailed                     (* a failed [assert] *)
  | Lock (k : prog A)         (* [mMutex.lock()], by [std::lock_guard]'s constructor *)
  | Unlock (k : prog A)       (* [mMutex.unlock()], by its destructor *)
  | Access {B : Type} (f : t → result (B * t)) (k : B → prog A).
Arguments Return {A} a.
Arguments AssertFailed {A}.
Arguments Lock {A} k.
Arguments Unlock {A} k.
Arguments Access {A B} f k.

Definition set_mutex (b : bool) (w : t) : t :=
  {| mMutex := b;
     mProductsByProducer := mProductsByProducer w;
     mProductsWithMetasById := mProductsWithMetasById w |}.

(** One thread running the code to its end. Locking a [std::mutex] that
    the thread already owns, or unlocking one it does not own, is undefined. *)
Fixpoint run {A : Type} (p : prog A) (w : t) : result (A * t) :=
  match p with
  | Return a => Ok (a, w)
  | AssertFailed => AssertionFailure
  | Lock k => if mMutex w then Undefined else run k (set_mutex true w)
  | Unlock k => if mMutex w then run k (set_mutex false w) else Undefined
  | Access f k =>
      match f w with
      | Ok (b, w') => run (k b) w'
      | AssertionFailure => AssertionFailure
      | Undefined => Undefined
      end
  end.

Notation "x <- f ;; k" := (Access f (λ x, k))
  (at level 100, f at next level, right associativity, only parsing).

(** Sequencing: the code [p], then [k] on what it returned. *)
Fixpoint bind {A B : Type} (p : prog A) (k : A → prog B) : prog B :=
  match p with
  | Return a => k a
  | AssertFailed => AssertFailed
  | Lock p' => Lock (bind p' k)
  | Unlock p' => Unlock (bind p' k)
  | Access f g => Access f (λ b, bind (g b) k)
  end.

(** *** The container calls the member functions make *)

(** An iterator of the [std::unordered_map] designates the entry of a key;
    [None] is [end()]. *)
Abbreviation id_iterator := (option string).

(** [mProductsWithMetasById.emplace(key, value)]: inserts unless the key is
    there; returns the iterator of the entry of that key and whether it
    inserted. *)
Definition byId_emplace (key : string) (value : ProductWithMeta) (w : t)
  : result ((id_iterator * bool) * t) :=
  match mProductsWithMetasById w !! key with
  | Some _ => Ok ((Some key, false), w)
  | None =>
      Ok ((Some key, true),
          {| mMutex := mMutex w;
             mProductsByProducer := mProductsByProducer w;
             mProductsWithMetasById := <[key := value]> (mProductsWithMetasById w) |})
  end.

(** [mProductsWithMetasById.find(id)] *)
Definition byId_find (id : string) (w : t) : result (id_iterator * t) :=
  match mProductsWithMetasById w !! id with
  | Some _ => Ok (Some id, w)
  | None => Ok (None, w)
  end.

(** [it->second], for an iterator of [mProductsWithMetasById] *)
Definition byId_deref (it : id_iterator) (w : t) : result (ProductWithMeta * t) :=
  match it with
  | Some key =>
      match mProductsWithMetasById w !! key with
      | Some e => Ok (e, w)
      | None => Undefined
      end
  | None => Undefined
  end.

(** [it->second.meta.it_productsByProducer = pos] *)
Definition byId_set_meta (it : id_iterator) (pos : multimap.const_iterator) (w : t)
  : result (unit * t) :=
  match it with
  | Some key =>
      match mProductsWithMetasById w !! key with
      | Some e =>
          Ok (tt,
              {| mMutex := mMutex w;
                 mProductsByProducer := mProductsByProducer w;
                 mProductsWithMetasById :=
                   <[key := {| pProduct := pProduct e;
                               meta := {| it_productsByProducer := pos |} |}]>
                     (mProductsWithMetasById w) |})
      | None => Undefined
      end
  | None => Undefined
  end.

(** [mProductsWithMetasById.erase(it)] *)
Definition byId_erase (it : id_iterator) (w : t) : result (unit * t) :=
  match it with
  | Some key =>
      match mProductsWithMetasById w !! key with
      | Some _ =>
          Ok (tt,
              {| mMutex := mMutex w;
                 mProductsByProducer := mProductsByProducer w;
                 mProductsWithMetasById := delete key (mProductsWithMetasById w) |})
      | None => Undefined
      end
  | None => Undefined
  end.

(** [mProductsByProducer.emplace(key, value)] *)
Definition byProducer_emplace (key : string) (value : ProductPtr) (w : t)
  : result (multimap.const_iterator * t) :=
  let '(pos, m) := multimap.emplace key value (mProductsByProducer w) in
  Ok (pos,
      {| mMutex := mMutex w;
         mProductsByProducer := m;
         mProductsWithMetasById := mProductsWithMetasById w |}).

(** [mProductsByProducer.equal_range(producer)] *)
Definition byProducer_equal_range (producer : string) (w : t)
  : result ((multimap.cursor * multimap.const_iterator) * t) :=
  Ok (multimap.equal_range producer (mProductsByProducer w), w).

(** [mProductsByProducer.erase(pos)] *)
Definition byProducer_erase (pos : multimap.const_iterator) (w : t)
  : result (unit * t) :=
  match multimap.erase pos (mProductsByProducer w) with
  | Some m =>
      Ok (tt,
          {| mMutex := mMutex w;
             mProductsByProducer := m;
             mProductsWithMetasById := mProductsWithMetasById w |})
  | None => Undefined
  end.

(** A traversal of nodes through iterators obtained before: it reads the
    containers and leaves them as they are. *)
Definition traverse {B : Type} (r : result B) (w : t) : result (B * t) :=
  match r with
  | Ok b => Ok (b, w)
  | AssertionFailure => AssertionFailure
  | Undefined => Undefined
  end.

(** *** The member functions *)

Section Methods.

(** The product a non-empty pointer points to. Products are constant
    once shared, so the store does not change. *)
Variable pointee : address → Product.t.

(** [bool AddProduct(const ProductPtr &pProduct)] *)
Definition AddProduct (pProduct : ProductPtr) : prog bool :=
  match pProduct with
  | None => AssertFailed (* assert(pProduct) *)
  | Some a =>
      Lock (
      r <- byId_emplace (Product.id (pointee a))
                        (ProductWithMeta_ctor pProduct) ;;
      let '(it, success) := r in
      if success : bool then
        pos <- byProducer_emplace (Product.producer (pointee a)) pProduct ;;
        _ <- byId_set_meta it pos ;;
        Unlock (Return success)
      else
        Unlock (Return success))
  end.

(** [ProductPtr FindProductById(const Product::Id &id) const] *)
Definition FindProductById (id : string) : prog ProductPtr :=
  Lock (
  it <- byId_find id ;;
  match it with
  | Some _ =>
      e <- byId_deref it ;;
      Unlock (Return (pProduct e))
  | None => Unlock (Return None)
  end).

(** The loop of [FindProductsByProducer]:
    [while(range.first != range.second)
       { *out++ = (range.first++)->second; cntFound++; }].
    Incrementing or dereferencing [end()] is undefined. *)
Fixpoint copy_range (range_first : multimap.cursor)
    (range_second : multimap.const_iterator)
    (out : list ProductPtr) (cntFound : Z) : result (Z * list ProductPtr) :=
  if decide (multimap.iter range_first = range_second) then Ok (cntFound, out)
  else
    match range_first with
    | [] => Undefined
    | x :: next =>
        copy_range next range_second (out ++ [multimap.second x])
                   (size_t_incr cntFound)
    end.

(** [size_t FindProductsByProducer(const Product::Producer &producer, OutputIt out) const].
    The output iterator is the list of what has been written through it;
    the function returns the count and that list. *)
Definition FindProductsByProducer (producer : string) (out : list ProductPtr)
  : prog (Z * list ProductPtr) :=
  Lock (
  range <- byProducer_equal_range producer ;;
  found <- traverse (copy_range range.1 range.2 out 0) ;;
  Unlock (Return found)).

(** [size_t RemoveProductById(const Product::Id &id)] *)
Definition RemoveProductById (id : string) : prog Z :=
  Lock (
  it <- byId_find id ;;
  match it with
  | None => Unlock (Return 0)
  | Some _ =>
      e <- byId_deref it ;;
      _ <- byProducer_erase (it_productsByProducer (meta e)) ;;
      _ <- byId_erase it ;;
      Unlock (Return 1)
  end).

(** *** Callers

    A call of one of the four public member functions, and what it
    returns. [FindProductsByProducer] is called with an output iterator
    into an empty container, as with [std::back_inserter]. *)

Inductive call : Type :=
  | Call_AddProduct (pProduct : ProductPtr)
  | Call_FindProductById (id : string)
  | Call_FindProductsByProducer (producer : string)
  | Call_RemoveProductById (id : string).

Inductive retval : Type :=
  | Ret_bool (b : bool)
  | Ret_ptr (p : ProductPtr)
  | Ret_found (cntFound : Z) (out : list ProductPtr)
  | Ret_count (n : Z).

Definition invoke (c : call) : prog retval :=
  match c with
  | Call_AddProduct p => bind (AddProduct p) (λ b, Return (Ret_bool b))
  | Call_FindProductById id => bind (FindProductById id) (λ p, Return (Ret_ptr p))
  | Call_FindProductsByProducer producer =>
      bind (FindProductsByProducer producer [])
           (λ r, Return (Ret_found r.1 r.2))
  | Call_RemoveProductById id =>
      bind (RemoveProductById id) (λ n, Return (Ret_count n))
  end.

(** A single thread making the calls one after the other. *)
Fixpoint exec (cs : list call) (w : t) : result (list retval * t) :=
  match cs with
  | [] => Ok ([], w)
  | c :: cs' =>
      match run (invoke c) w with
      | Ok (r, w') =>
          match exec cs' w' with
          | Ok (rs, w'') => Ok (r :: rs, w'')
          | AssertionFailure => AssertionFailure
          | Undefined => Undefined
          end
      | AssertionFailure => AssertionFailure
      | Undefined => Undefined
      end
  end.

End Methods.

End Warehouse.


(** * Vocabulary of the specification *)

Import multimap.
Import Warehouse.

(** The keys never decrease along the sequence. *)
Definition keys_sorted (m : multimap.t) : Prop :=
  StronglySorted (λ x y, string_lt (first y) (first x) = false) m.

(** A container as the standard has it: ordered, each node with an identity
    of its own. *)
Definition multimap_wf (m : multimap.t) : Prop :=
  keys_sorted m ∧ NoDup (ident <$> m).

(** What [FindProductById(id)] reads off the primary index. *)
Definition lookup_id (id : string) (w : Warehouse.t) : ProductPtr :=
  match mProductsWithMetasById w !! id with
  | Some e => pProduct e
  | None => None
  end.

(** The nodes of the secondary index under a producer. *)
Definition group (producer : string) (w : Warehouse.t) : list node :=
  filter (λ x, first x = producer) (mProductsByProducer w).

(** The product is in the catalog: some slot of the primary index holds it. *)
Definition present (a : address) (w : Warehouse.t) : Prop :=
  ∃ k e, mProductsWithMetasById w !! k = Some e ∧ pProduct e = Some a.

(** No call is in progress. *)
Definition idle (w : Warehouse.t) : Prop := mMutex w = false.

(** The nodes of the secondary index that hold a product. *)
Definition nodes_of (a : address) (w : Warehouse.t) : list node :=
  filter (λ n, second n = Some a) (mProductsByProducer w).

(** The slots of the primary index that hold a product. *)
Definition slots_of (a : address) (w : Warehouse.t) : list (string * ProductWithMeta) :=
  filter (λ ke, pProduct ke.2 = Some a) (map_to_list (mProductsWithMetasById w)).

(** The state after a successful [RemoveProductById]. *)
Definition removed (id : string) (i : positive) (w : Warehouse.t) : Warehouse.t :=
  {| mMutex := mMutex w;
     mProductsByProducer := filter (λ x, ident x ≠ i) (mProductsByProducer w);
     mProductsWithMetasById := delete id (mProductsWithMetasById w) |}.

(** A thread: the call it makes, and what is left of its code. *)
Abbreviation thread := (call * prog retval)%type.

Section Vocabulary.

Variable pointee : address → Product.t.

(** The state after a successful [AddProduct]. *)
Definition added (a : address) (w : Warehouse.t) : Warehouse.t :=
  let i := fresh (mProductsByProducer w) in
  {| mMutex := mMutex w;
     mProductsByProducer :=
       insert_upper (Node i (Product.producer (pointee a)) (Some a))
                    (mProductsByProducer w);
     mProductsWithMetasById :=
       <[Product.id (pointee a) :=
           {| pProduct := Some a;
              meta := {| it_productsByProducer := at_node i |} |}]>
         (mProductsWithMetasById w) |}.

(** An entry of the primary index and its node of the secondary index: the
    entry holds a product under the product's id, and caches the iterator of
    a node that holds the same product under the product's producer. *)
Definition entry_linked (w : Warehouse.t) (k : string) (e : ProductWithMeta) : Prop :=
  ∃ a i, pProduct e = Some a
         ∧ Product.id (pointee a) = k
         ∧ it_productsByProducer (meta e) = at_node i
         ∧ Node i (Product.producer (pointee a)) (Some a) ∈ mProductsByProducer w.

(** A node of the secondary index and its entry of the primary index. *)
Definition node_linked (w : Warehouse.t) (n : node) : Prop :=
  ∃ a, second n = Some a
       ∧ first n = Product.producer (pointee a)
       ∧ mProductsWithMetasById w !! Product.id (pointee a)
         = Some {| pProduct := Some a;
                   meta := {| it_productsByProducer := at_node (ident n) |} |}.

(** The two indexes agree. *)
Record consistent (w : Warehouse.t) : Prop := Consistent
  { consistent_wf : multimap_wf (mProductsByProducer w);
    consistent_entries :
      ∀ k e, mProductsWithMetasById w !! k = Some e → entry_linked w k e;
    consistent_nodes :
      ∀ n, n ∈ mProductsByProducer w → node_linked w n }.

(** What a call returns and the state it leaves, by cases. *)
Inductive call_spec (w : Warehouse.t) : call → retval → Warehouse.t → Prop :=
  | spec_add_new a :
      mProductsWithMetasById w !! Product.id (pointee a) = None →
      call_spec w (Call_AddProduct (Some a)) (Ret_bool true) (added a w)
  | spec_add_dup a e :
      mProductsWithMetasById w !! Product.id (pointee a) = Some e →
      call_spec w (Call_AddProduct (Some a)) (Ret_bool false) w
  | spec_find_id id :
      call_spec w (Call_FindProductById id) (Ret_ptr (lookup_id id w)) w
  | spec_find_producer producer :
      call_spec w (Call_FindProductsByProducer producer)
        (Ret_found (Z.of_nat (length (group producer w)) mod SIZE_MAX1)
                   (second <$> group producer w)) w
  | spec_remove_present id e i :
      mProductsWithMetasById w !! id = Some e →
      it_productsByProducer (meta e) = at_node i →
      call_spec w (Call_RemoveProductById id) (Ret_count 1) (removed id i w)
  | spec_remove_absent id :
      mProductsWithMetasById w !! id = None →
      call_spec w (Call_RemoveProductById id) (Ret_count 0) w.

(** A call that changed whether a product of id [x] is present: an
    [AddProduct] of a product of that id that returned [true], or a
    [RemoveProductById] of that id that returned 1. *)
Inductive change : Type := Added | Removed.

Definition change_of (x : string) (c : call) (r : retval) : option change :=
  match c, r with
  | Call_AddProduct (Some a), Ret_bool true =>
      if decide (Product.id (pointee a) = x) then Some Added else None
  | Call_RemoveProductById id, Ret_count 1 =>
      if decide (id = x) then Some Removed else None
  | _, _ => None
  end.

(** The most recent such call in a history of calls and of what they
    returned, [recent] being the most recent one before the history. *)
Fixpoint last_change (x : string) (cs : list call) (rs : list retval)
    (recent : option change) : option change :=
  match cs, rs with
  | c :: cs', r :: rs' =>
      last_change x cs' rs'
        (match change_of x c r with
         | Some ch => Some ch
         | None => recent
         end)
  | _, _ => recent
  end.

(** The caller keeps the precondition of [AddProduct]. *)
Definition call_valid (c : call) : Prop :=
  match c with
  | Call_AddProduct None => False
  | _ => True
  end.

End Vocabulary.

(** * Several threads

    Each thread makes one call; the threads take their steps in any order.
    A thread at [Lock] waits while the mutex is locked. A caller may start
    a new call at any time. *)

Section Threads.

Variable pointee : address → Product.t.

(** One step of a thread, when it can take one. *)
Definition thread_step {A : Type} (p : prog A) (w : Warehouse.t)
  : option (Warehouse.t * prog A) :=
  match p with
  | Lock k => if mMutex w then None else Some (set_mutex true w, k)
  | Unlock k => if mMutex w then Some (set_mutex false w, k) else None
  | Access f k =>
      match f w with
      | Ok (b, w') => Some (w', k b)
      | _ => None
      end
  | Return _ | AssertFailed => None
  end.

(** One step of the whole: a thread takes a step, or a caller starts a call. *)
Inductive step : Warehouse.t * list thread → Warehouse.t * list thread → Prop :=
  | step_thread w ts i c p w' p' :
      ts !! i = Some (c, p) → thread_step p w = Some (w', p') →
      step (w, ts) (w', <[i := (c, p')]> ts)
  | step_spawn w ts c :
      call_valid c →
      step (w, ts) (w, ts ++ [(c, Warehouse.invoke pointee c)]).

(** A schedule: which thread takes the next step, or which call is started
    next. *)
Inductive event : Type :=
  | Ev_step (i : nat)
  | Ev_spawn (c : call).

Definition schedule_step (e : event) (cfg : Warehouse.t * list thread)
  : option (Warehouse.t * list thread) :=
  match e with
  | Ev_step i =>
      match cfg.2 !! i with
      | Some (c, p) =>
          match thread_step p cfg.1 with
          | Some (w', p') => Some (w', <[i := (c, p')]> cfg.2)
          | None => None
          end
      | None => None
      end
  | Ev_spawn c =>
      match c with
      | Call_AddProduct None => None
      | _ => Some (cfg.1, cfg.2 ++ [(c, Warehouse.invoke pointee c)])
      end
  end.

Fixpoint schedule (es : list event) (cfg : Warehouse.t * list thread)
  : option (Warehouse.t * list thread) :=
  match es with
  | [] => Some cfg
  | e :: es' =>
      match schedule_step e cfg with
      | Some cfg' => schedule es' cfg'
      | None => None
      end
  end.

(** What threads can make of a default-constructed warehouse. *)
Definition reachable (cfg : Warehouse.t * list thread) : Prop :=
  rtc step (Warehouse.empty, []) cfg.

(** The thread is between its [Lock] and its [Unlock]: its next step reads
    or writes the containers, or unlocks. *)
Definition in_critical_section {A : Type} (p : prog A) : Prop :=
  match p with
  | Access _ _ | Unlock _ => True
  | _ => False
  end.

(** Code that runs with the mutex locked: container calls that leave the
    mutex alone, up to one [Unlock], after which it returns. *)
Fixpoint critical {A : Type} (p : prog A) : Prop :=
  match p with
  | Access f k =>
      (∀ w b w', f w = Ok (b, w') → mMutex w' = mMutex w) ∧ ∀ b, critical (k b)
  | Unlock k => match k with Return _ => True | _ => False end
  | _ => False
  end.

(** A log of calls that have returned: each with the index of its thread
    and with what it returned. *)
Definition log_threads (log : list (nat * call * retval)) : list nat :=
  (λ e, e.1.1) <$> log.
Definition log_calls (log : list (nat * call * retval)) : list call :=
  (λ e, e.1.2) <$> log.
Definition log_rets (log : list (nat * call * retval)) : list retval :=
  (λ e, e.2) <$> log.

(** A linearization: the calls that have returned are those of the log,
    and one thread making them one after the other, in the order of the
    log, gets the results they returned and the present state; the other
    threads have not started. *)
Record linearization (w : Warehouse.t) (ts : list thread)
    (log : list (nat * call * retval)) : Prop := Linearization
  { lin_nodup : NoDup (log_threads log);
    lin_exec :
      Warehouse.exec pointee (log_calls log) Warehouse.empty = Ok (log_rets log, w);
    lin_returned : ∀ i c r, (i, c, r) ∈ log → ts !! i = Some (c, Return r);
    lin_not_started :
      ∀ i c p, ts !! i = Some (c, p) → i ∉ log_threads log →
               p = Warehouse.invoke pointee c ∧ call_valid c }.

(** The same while a thread [j] holds the mutex: [w_seq] is the state that
    the calls of the log leave, and what is left of the code of [j] will
    make of the current state what its whole call makes of [w_seq]. *)
Record linearization_held (w : Warehouse.t) (ts : list thread)
    (log : list (nat * call * retval)) (w_seq : Warehouse.t) (j : nat) : Prop :=
  LinearizationHeld
  { held_nodup : NoDup (log_threads log);
    held_exec :
      Warehouse.exec pointee (log_calls log) Warehouse.empty = Ok (log_rets log, w_seq);
    held_returned : ∀ i c r, (i, c, r) ∈ log → ts !! i = Some (c, Return r);
    held_not_started :
      ∀ i c p, ts !! i = Some (c, p) → i ∉ log_threads log → i ≠ j →
               p = Warehouse.invoke pointee c ∧ call_valid c;
    held_locked : mMutex w = true;
    held_fresh : j ∉ log_threads log;
    held_thread :
      ∃ c p, ts !! j = Some (c, p) ∧ call_valid c ∧ critical p
             ∧ run p w = run (Warehouse.invoke pointee c) w_seq }.

(** What every step keeps. *)
Definition step_invariant (cfg : Warehouse.t * list thread) : Prop :=
  (mMutex cfg.1 = false ∧ ∃ log, linearization cfg.1 cfg.2 log)
  ∨ (∃ log w_seq j, linearization_held cfg.1 cfg.2 log w_seq j).

(** The same with the log named: [log] holds the calls that have returned
    in the configuration, in an order in which one thread could have made
    them. *)
Definition logged (cfg : Warehouse.t * list thread)
    (log : list (nat * call * retval)) : Prop :=
  (mMutex cfg.1 = false ∧ linearization cfg.1 cfg.2 log)
  ∨ (∃ w_seq j, linearization_held cfg.1 cfg.2 log w_seq j).

End Threads.

(** * A plain list of products

    The present products, oldest first, and what the four calls are on such
    a list: the warehouse is compared with it below. *)

Section PlainList.

Variable pointee : address → Product.t.

(** The first product of the id. *)
Definition list_find (id : string) (l : list address) : ProductPtr :=
  head (filter (λ a, Product.id (pointee a) = id) l).

Definition list_call (c : call) (l : list address) : option (retval * list address) :=
  match c with
  | Call_AddProduct None => None
  | Call_AddProduct (Some a) =>
      match list_find (Product.id (pointee a)) l with
      | Some _ => Some (Ret_bool false, l)
      | None => Some (Ret_bool true, l ++ [a])
      end
  | Call_FindProductById id => Some (Ret_ptr (list_find id l), l)
  | Call_FindProductsByProducer producer =>
      let found := filter (λ a, Product.producer (pointee a) = producer) l in
      Some (Ret_found (Z.of_nat (length found) mod SIZE_MAX1) (Some <$> found), l)
  | Call_RemoveProductById id =>
      match list_find id l with
      | Some _ => Some (Ret_count 1, filter (λ a, Product.id (pointee a) ≠ id) l)
      | None => Some (Ret_count 0, l)
      end
  end.

Fixpoint list_exec (cs : list call) (l : list address)
  : option (list retval * list address) :=
  match cs with
  | [] => Some ([], l)
  | c :: cs' =>
      match list_call c l with
      | Some (r, l') =>
          match list_exec cs' l' with
          | Some (rs, l'') => Some (r :: rs, l'')
          | None => None
          end
      | None => None
      end
  end.

(** The list holds the present products of the warehouse, each once, and
    under each producer in the order of the secondary index. *)
Definition represents (l : list address) (w : Warehouse.t) : Prop :=
  NoDup l
  ∧ (∀ a, a ∈ l ↔ present a w)
  ∧ ∀ producer,
      second <$> group producer w
      = Some <$> filter (λ a, Product.producer (pointee a) = producer) l.

End PlainList.

(** The calls that add the products of a list, and those that remove them. *)
Definition adds (l : list address) : list call :=
  (λ a, Call_AddProduct (Some a)) <$> l.

Definition removes (pointee : address → Product.t) (l : list address) : list call :=
  (λ a, Call_RemoveProductById (Product.id (pointee a))) <$> l.

(** ** Sample products, calls and schedules *)

(** Four products; the fourth has the id of the first. *)
Definition sample_pointee (a : address) : Product.t :=
  match a with
  | 1%positive => Product.mk "id1" "producerX" "A" 1
  | 2%positive => Product.mk "id2" "producerX" "B" 2
  | 3%positive => Product.mk "id3" "producerY" "C" 3
  | _ => Product.mk "id1" "producerZ" "D" 4
  end.

Definition sample_calls : list call :=
  [Call_AddProduct (Some 1%positive);
   Call_AddProduct (Some 3%positive);
   Call_AddProduct (Some 2%positive);
   Call_AddProduct (Some 4%positive);
   Call_RemoveProductById "id9"].

Definition sample_rets : list retval :=
  [Ret_bool true; Ret_bool true; Ret_bool true; Ret_bool false; Ret_count 0].

(** The same products under other names and at other prices. *)
Definition sample_renamed (a : address) : Product.t :=
  Product.mk (Product.id (sample_pointee a)) (Product.producer (sample_pointee a))
             "renamed" (Product.price (sample_pointee a) + 1)%N.

(** The state the sample calls leave: products 1, 2 and 3. *)
Definition sample_state : Warehouse.t :=
  match Warehouse.exec sample_pointee sample_calls Warehouse.empty with
  | Ok (_, w) => w
  | _ => Warehouse.empty
  end.

(** The state and the results of more calls made by one thread. *)
Definition state_after (cs : list call) (w : Warehouse.t) : Warehouse.t :=
  match Warehouse.exec sample_pointee cs w with
  | Ok (_, w') => w'
  | _ => w
  end.

Definition rets_after (cs : list call) (w : Warehouse.t) : list retval :=
  match Warehouse.exec sample_pointee cs w with
  | Ok (rs, _) => rs
  | _ => []
  end.

(** Two threads add products 1 and 2; the second starts, and waits for the
    mutex, while the first is between its two insertions. *)
Definition sample_schedule : list event :=
  [Ev_spawn (Call_AddProduct (Some 1%positive)); Ev_step 0; Ev_step 0;
   Ev_spawn (Call_AddProduct (Some 2%positive));
   Ev_step 0; Ev_step 0; Ev_step 0;
   Ev_step 1; Ev_step 1; Ev_step 1; Ev_step 1; Ev_step 1].

Definition sample_config : Warehouse.t * list thread :=
  match schedule sample_pointee sample_schedule (Warehouse.empty, []) with
  | Some cfg => cfg
  | None => (Warehouse.empty, [])
  end.

(** Midway: the first thread is between its two insertions, the second is
    at its [Lock]. *)
Definition sample_midway : Warehouse.t * list thread :=
  match schedule sample_pointee
          [Ev_spawn (Call_AddProduct (Some 1%positive)); Ev_step 0; Ev_step 0;
           Ev_spawn (Call_AddProduct (Some 2%positive))]
          (Warehouse.empty, []) with
  | Some cfg => cfg
  | None => (Warehouse.empty, [])
  end.

(** The first thread has returned from its call; the second has not been
    started. *)
Definition sample_first_returned : Warehouse.t * list thread :=
  match schedule sample_pointee
          [Ev_spawn (Call_AddProduct (Some 1%positive));
           Ev_step 0; Ev_step 0; Ev_step 0; Ev_step 0; Ev_step 0]
          (Warehouse.empty, []) with
  | Some cfg => cfg
  | None => (Warehouse.empty, [])
  end.

(** Then the second thread is started and runs to its return. *)
Definition sample_second_schedule : list event :=
  [Ev_spawn (Call_AddProduct (Some 2%positive));
   Ev_step 1; Ev_step 1; Ev_step 1; Ev_step 1; Ev_step 1].

Definition sample_both_returned : Warehouse.t * list thread :=
  match schedule sample_pointee sample_second_schedule sample_first_returned with
  | Some cfg => cfg
  | None => (Warehouse.empty, [])
  end.

(** * Verification *)

(** ** The order on strings *)

Lemma string_lt_irrefl (a : string) : string_lt a a = false.
Proof.
  unfold string_lt, String.ltb.
  destruct (String.compare a a) eqn:E; try reflexivity.
  exfalso. eapply (@irreflexivity _ _ (@StrictOrder_Irreflexive _ _ String_as_OT.lt_strorder) a).
  exact E.
Qed.

Lemma string_lt_trans (a b c : string) :
  string_lt a b = true → string_lt b c = true → string_lt a c = true.
Proof.
  unfold string_lt, String.ltb. intros Hab Hbc.
  destruct (String.compare a b) eqn:E1; try discriminate.
  destruct (String.compare b c) eqn:E2; try discriminate.
  pose proof (@transitivity _ _ (@StrictOrder_Transitive _ _ String_as_OT.lt_strorder)
                a b c E1 E2) as H.
  unfold String_as_OT.lt in H. change (String.compare a c = Lt) in H. by rewrite H.
Qed.

Lemma string_lt_asym (a b : string) : string_lt a b = true → string_lt b a = false.
Proof.
  intros H. destruct (string_lt b a) eqn:E; [|done].
  pose proof (string_lt_trans _ _ _ H E) as H'. by rewrite string_lt_irrefl in H'.
Qed.

Lemma string_lt_total (a b : string) :
  string_lt a b = false → string_lt b a = false → a = b.
Proof.
  unfold string_lt, String.ltb. intros Hab Hba.
  destruct (String.compare a b) eqn:E1; try discriminate.
  - by apply String.compare_eq_iff.
  - rewrite String.compare_antisym, E1 in Hba. discriminate.
Qed.

(** [a <= b <  c] gives [a < c] *)
Lemma string_le_lt_trans (a b c : string) :
  string_lt b a = false → string_lt b c = true → string_lt a c = true.
Proof.
  intros Hab Hbc. destruct (string_lt a b) eqn:E.
  - eauto using string_lt_trans.
  - by rewrite (string_lt_total a b).
Qed.

Lemma string_lt_le_trans (a b c : string) :
  string_lt a b = true → string_lt c b = false → string_lt a c = true.
Proof.
  intros Hab Hbc. destruct (string_lt b c) eqn:E.
  - eauto using string_lt_trans.
  - by rewrite <-(string_lt_total b c).
Qed.

Lemma string_le_trans (a b c : string) :
  string_lt b a = false → string_lt c b = false → string_lt c a = false.
Proof.
  intros Hab Hbc. destruct (string_lt c a) eqn:E; [|done].
  pose proof (string_lt_le_trans _ _ _ E Hab) as H. congruence.
Qed.


(** ** The multimap *)

Lemma fresh_bound (m : multimap.t) (i : positive) :
  i ∈ ident <$> m → (i < fresh m)%positive.
Proof.
  unfold fresh. induction m as [|x m IH].
  - by intros ?%elem_of_nil.
  - rewrite fmap_cons. intros [->|Hi]%elem_of_cons.
    + cbn [foldr]. lia.
    + specialize (IH Hi). cbn [foldr]. lia.
Qed.

Lemma fresh_not_in (m : multimap.t) : fresh m ∉ ident <$> m.
Proof. intros H%fresh_bound. lia. Qed.

Lemma insert_upper_perm (n : node) (m : multimap.t) : insert_upper n m ≡ₚ n :: m.
Proof.
  induction m as [|x m IH]; simpl; [done|].
  destruct (string_lt (first n) (first x)); [done|].
  rewrite IH. apply Permutation_swap.
Qed.

Lemma elem_of_insert_upper (y n : node) (m : multimap.t) :
  y ∈ insert_upper n m ↔ y = n ∨ y ∈ m.
Proof. rewrite insert_upper_perm. apply elem_of_cons. Qed.

Lemma insert_upper_sorted (n : node) (m : multimap.t) :
  keys_sorted m → keys_sorted (insert_upper n m).
Proof.
  unfold keys_sorted. induction 1 as [|x m Hm IH Hx]; simpl.
  - repeat constructor.
  - destruct (string_lt (first n) (first x)) eqn:E.
    + constructor; [by constructor|].
      constructor; [by apply string_lt_asym|].
      apply Forall_forall. intros y Hy.
      rewrite Forall_forall in Hx. specialize (Hx y Hy).
      destruct (string_lt (first y) (first n)) eqn:E'; [|done].
      pose proof (string_lt_trans _ _ _ E' E). congruence.
    + constructor; [done|].
      apply Forall_forall. intros y [->|Hy]%elem_of_insert_upper; [done|].
      rewrite Forall_forall in Hx. by apply Hx.
Qed.

Lemma insert_upper_wf (k : string) (v : ProductPtr) (m : multimap.t) :
  multimap_wf m → multimap_wf (insert_upper (Node (fresh m) k v) m).
Proof.
  intros [Hs Hn]. split; [by apply insert_upper_sorted|].
  rewrite insert_upper_perm. simpl. apply NoDup_cons. split; [apply fresh_not_in|done].
Qed.

Lemma filter_sorted (P : node → Prop) `{∀ x, Decision (P x)} (m : multimap.t) :
  keys_sorted m → keys_sorted (filter P m).
Proof.
  unfold keys_sorted. induction 1 as [|x m Hm IH Hx]; [constructor|].
  rewrite filter_cons. destruct (decide (P x)); [|done].
  constructor; [done|].
  rewrite Forall_forall in Hx. apply Forall_forall.
  intros y [_ Hy]%list_elem_of_filter. by apply Hx.
Qed.

Lemma filter_wf (P : node → Prop) `{∀ x, Decision (P x)} (m : multimap.t) :
  multimap_wf m → multimap_wf (filter P m).
Proof.
  intros [Hs Hn]. split; [by apply filter_sorted|].
  clear Hs. induction m as [|x m IH]; [constructor|].
  rewrite fmap_cons in Hn. apply NoDup_cons in Hn as [Hx Hn].
  rewrite filter_cons. destruct (decide (P x)); [|by apply IH].
  rewrite fmap_cons. apply NoDup_cons. split; [|by apply IH].
  intros (y & Hy & Hin)%list_elem_of_fmap. apply Hx.
  apply list_elem_of_fmap. exists y. split; [done|].
  by apply list_elem_of_filter in Hin as [_ ?].
Qed.

(** The identity of a node determines the node. *)
Lemma node_ident_inj (m : multimap.t) (x y : node) :
  NoDup (ident <$> m) → x ∈ m → y ∈ m → ident x = ident y → x = y.
Proof.
  induction m as [|z m IH]; [by intros _ ?%elem_of_nil|].
  rewrite fmap_cons. intros [Hz Hn]%NoDup_cons Hx Hy Heq.
  apply elem_of_cons in Hx as [->|Hx]; apply elem_of_cons in Hy as [->|Hy].
  - done.
  - exfalso. apply Hz. rewrite Heq. by apply list_elem_of_fmap_2.
  - exfalso. apply Hz. rewrite <-Heq. by apply list_elem_of_fmap_2.
  - by apply IH.
Qed.

(** *** Traversing the range of a key *)

Lemma size_t_incr_mod (c : Z) : size_t_incr (c mod SIZE_MAX1) = (c + 1) mod SIZE_MAX1.
Proof. unfold size_t_incr. by rewrite Z.add_mod_idemp_l. Qed.

Lemma upper_bound_head (k : string) (m : multimap.t) :
  iter (upper_bound k m) = past_the_end
  ∨ ∃ y, y ∈ m ∧ iter (upper_bound k m) = at_node (ident y).
Proof.
  induction m as [|x m IH]; simpl; [by left|].
  destruct (string_lt k (first x)).
  - right. exists x. split; [left|done].
  - destruct IH as [IH|(y & Hy & IH)]; [by left|].
    right. exists y. split; [by right|done].
Qed.

Lemma lower_bound_all_ge (k : string) (m : multimap.t) :
  Forall (λ y, string_lt (first y) k = false) m → lower_bound k m = m.
Proof. destruct 1 as [|y m Hy _]; simpl; [done|]. by rewrite Hy. Qed.

Lemma filter_key_all_gt (k : string) (m : multimap.t) :
  Forall (λ y, string_lt k (first y) = true) m →
  filter (λ y, first y = k) m = [].
Proof.
  induction 1 as [|y m Hy _ IH]; [done|].
  rewrite filter_cons. destruct (decide (first y = k)) as [E|]; [|done].
  rewrite E, string_lt_irrefl in Hy. discriminate.
Qed.

(** On a well-formed container the loop over [equal_range(k)] visits the
    nodes of key [k], each once, in their order in the sequence, and counts
    them modulo the range of [size_t]. *)
Lemma copy_range_equal_range (k : string) (m : multimap.t) :
  multimap_wf m → ∀ (out : list ProductPtr) (c : Z),
  Warehouse.copy_range (lower_bound k m) (iter (upper_bound k m)) out (c mod SIZE_MAX1)
  = Ok ((c + Z.of_nat (length (filter (λ x, first x = k) m))) mod SIZE_MAX1,
        out ++ (second <$> filter (λ x, first x = k) m)).
Proof.
  intros [Hs Hn]. induction m as [|x m IH]; intros out c.
  - cbn [lower_bound upper_bound iter Warehouse.copy_range].
    rewrite decide_True by done. rewrite filter_nil. simpl.
    by rewrite Z.add_0_r, app_nil_r.
  - apply StronglySorted_inv in Hs as [Hs Hx].
    rewrite fmap_cons in Hn. apply NoDup_cons in Hn as [Hxn Hn].
    specialize (IH Hs Hn). rewrite filter_cons.
    cbn [lower_bound upper_bound].
    destruct (string_lt (first x) k) eqn:Elt.
    + (* the node is before the range *)
      rewrite (string_lt_asym _ _ Elt).
      destruct (decide (first x = k)) as [E|]; [|apply IH].
      rewrite E, string_lt_irrefl in Elt. discriminate.
    + destruct (string_lt k (first x)) eqn:Egt.
      * (* the range is empty: both bounds are this node *)
        destruct (decide (first x = k)) as [E|_].
        { rewrite E, string_lt_irrefl in Egt. discriminate. }
        rewrite filter_key_all_gt.
        2:{ eapply Forall_impl; [exact Hx|]. simpl. intros y Hy.
            eapply string_lt_le_trans; eauto. }
        cbn [iter Warehouse.copy_range].
        rewrite decide_True by done. simpl. by rewrite Z.add_0_r, app_nil_r.
      * (* the node opens the range *)
        assert (first x = k) as E by (symmetry; by apply string_lt_total).
        rewrite decide_True by done.
        cbn [Warehouse.copy_range]. rewrite decide_False.
        2:{ destruct (upper_bound_head k m) as [->|(y & Hy & ->)]; [done|].
            intros [= Hid]. apply Hxn. rewrite Hid. by apply list_elem_of_fmap_2. }
        rewrite size_t_incr_mod.
        rewrite <-(lower_bound_all_ge k m) at 1.
        2:{ eapply Forall_impl; [exact Hx|]. simpl. intros y Hy. by rewrite <-E. }
        rewrite IH. simpl. f_equal. f_equal.
        -- f_equal. lia.
        -- by rewrite <-app_assoc.
Qed.

Lemma filter_key_insert_upper_ne (k : string) (n : node) (m : multimap.t) :
  first n ≠ k →
  filter (λ x, first x = k) (insert_upper n m) = filter (λ x, first x = k) m.
Proof.
  intros Hne. induction m as [|x m IH]; simpl.
  - rewrite filter_cons. by rewrite decide_False.
  - destruct (string_lt (first n) (first x)).
    + rewrite (filter_cons _ n). by rewrite decide_False.
    + rewrite !(filter_cons _ x). by rewrite IH.
Qed.

(** A new node goes behind the nodes of the same key: the order of insertion
    is kept within a key. *)
Lemma filter_key_insert_upper_eq (n : node) (m : multimap.t) :
  keys_sorted m →
  filter (λ x, first x = first n) (insert_upper n m)
  = filter (λ x, first x = first n) m ++ [n].
Proof.
  unfold keys_sorted. induction 1 as [|x m Hm IH Hx]; simpl.
  - rewrite filter_cons. by rewrite decide_True.
  - destruct (string_lt (first n) (first x)) eqn:E.
    + rewrite (filter_cons _ n), decide_True by done.
      rewrite filter_key_all_gt; [done|].
      constructor; [done|].
      eapply Forall_impl; [exact Hx|]. simpl. intros y Hy.
      eapply string_lt_le_trans; eauto.
    + rewrite !(filter_cons _ x), IH. by destruct (decide (first x = first n)).
Qed.

Lemma NoDup_all_equal {A : Type} (l : list A) (x : A) :
  NoDup l → x ∈ l → (∀ y, y ∈ l → y = x) → l = [x].
Proof.
  intros Hnd Hx Hall. destruct l as [|y l]; [by apply elem_of_nil in Hx|].
  assert (y = x) as -> by (apply Hall; left).
  f_equal. destruct l as [|z l]; [done|].
  apply NoDup_cons in Hnd as [Hnotin _]. exfalso. apply Hnotin.
  rewrite <-(Hall z); [left|right; left].
Qed.

(** ** The member functions, run by one thread *)

Lemma set_mutex_release (w : Warehouse.t) :
  mMutex w = false → set_mutex false (set_mutex true w) = w.
Proof. destruct w; simpl; by intros ->. Qed.

Ltac run_simpl :=
  cbn [run set_mutex traverse fst snd mMutex mProductsByProducer
       mProductsWithMetasById pProduct meta it_productsByProducer].

(** Entering the function: the mutex is free, the guard takes it. *)
Ltac enter_lock Hm := cbn [run]; rewrite Hm; run_simpl.

Section Proofs.

Variable pointee : address → Product.t.

Local Abbreviation AddProduct := (Warehouse.AddProduct pointee).
Local Abbreviation invoke := (Warehouse.invoke pointee).
Local Abbreviation exec := (Warehouse.exec pointee).
Local Abbreviation added := (added pointee).
Local Abbreviation consistent := (consistent pointee).
Local Abbreviation entry_linked := (entry_linked pointee).
Local Abbreviation node_linked := (node_linked pointee).
Local Abbreviation call_spec := (call_spec pointee).
Local Abbreviation change_of := (change_of pointee).
Local Abbreviation last_change := (last_change pointee).
Local Abbreviation step := (step pointee).
Local Abbreviation reachable := (reachable pointee).
Local Abbreviation linearization := (linearization pointee).
Local Abbreviation linearization_held := (linearization_held pointee).
Local Abbreviation step_invariant := (step_invariant pointee).
Local Abbreviation logged := (logged pointee).
Local Abbreviation schedule := (schedule pointee).
Local Abbreviation schedule_step := (schedule_step pointee).
Local Abbreviation list_find := (list_find pointee).
Local Abbreviation list_call := (list_call pointee).
Local Abbreviation list_exec := (list_exec pointee).
Local Abbreviation represents := (represents pointee).
Local Abbreviation removes := (removes pointee).

Lemma run_FindProductById (id : string) (w : Warehouse.t) :
  mMutex w = false →
  run (FindProductById id) w = Ok (lookup_id id w, w).
Proof.
  intros Hm. unfold FindProductById, lookup_id. enter_lock Hm.
  unfold byId_find. run_simpl.
  destruct (mProductsWithMetasById w !! id) as [e|] eqn:E; run_simpl.
  - unfold byId_deref. run_simpl. rewrite E. run_simpl.
    by rewrite set_mutex_release.
  - by rewrite set_mutex_release.
Qed.

Lemma run_FindProductsByProducer (producer : string) (out : list ProductPtr)
    (w : Warehouse.t) :
  mMutex w = false → multimap_wf (mProductsByProducer w) →
  run (FindProductsByProducer producer out) w
  = Ok ((Z.of_nat (length (group producer w)) mod SIZE_MAX1,
         out ++ (second <$> group producer w)), w).
Proof.
  intros Hm Hwf. unfold FindProductsByProducer, group. enter_lock Hm.
  unfold byProducer_equal_range, equal_range. run_simpl.
  change 0 with (0 mod SIZE_MAX1).
  rewrite (copy_range_equal_range producer _ Hwf out 0).
  run_simpl. rewrite Z.add_0_l. by rewrite set_mutex_release.
Qed.

Lemma run_AddProduct_null (w : Warehouse.t) :
  run (AddProduct None) w = AssertionFailure.
Proof. reflexivity. Qed.

Lemma run_AddProduct_new (a : address) (w : Warehouse.t) :
  mMutex w = false →
  mProductsWithMetasById w !! Product.id (pointee a) = None →
  run (AddProduct (Some a)) w = Ok (true, added a w).
Proof.
  intros Hm Hnone. unfold Warehouse.AddProduct, added. enter_lock Hm.
  unfold byId_emplace. run_simpl. rewrite Hnone. run_simpl.
  unfold byProducer_emplace, emplace. run_simpl.
  unfold byId_set_meta. run_simpl.
  rewrite lookup_insert_eq. unfold ProductWithMeta_ctor. run_simpl.
  by rewrite insert_insert_eq.
Qed.

Lemma run_AddProduct_dup (a : address) (w : Warehouse.t) (e : ProductWithMeta) :
  mMutex w = false →
  mProductsWithMetasById w !! Product.id (pointee a) = Some e →
  run (AddProduct (Some a)) w = Ok (false, w).
Proof.
  intros Hm He. unfold Warehouse.AddProduct. enter_lock Hm.
  unfold byId_emplace. run_simpl. rewrite He. run_simpl.
  by rewrite set_mutex_release.
Qed.

Lemma run_RemoveProductById_absent (id : string) (w : Warehouse.t) :
  mMutex w = false →
  mProductsWithMetasById w !! id = None →
  run (RemoveProductById id) w = Ok (0, w).
Proof.
  intros Hm He. unfold RemoveProductById. enter_lock Hm.
  unfold byId_find. run_simpl. rewrite He. run_simpl.
  by rewrite set_mutex_release.
Qed.

Lemma run_RemoveProductById_present (id : string) (w : Warehouse.t)
    (e : ProductWithMeta) (i : positive) :
  mMutex w = false →
  mProductsWithMetasById w !! id = Some e →
  it_productsByProducer (meta e) = at_node i →
  i ∈ ident <$> mProductsByProducer w →
  run (RemoveProductById id) w = Ok (1, removed id i w).
Proof.
  intros Hm He Hit Hi. unfold RemoveProductById, removed. enter_lock Hm.
  unfold byId_find. run_simpl. rewrite He. run_simpl.
  unfold byId_deref. run_simpl. rewrite He. run_simpl.
  unfold byProducer_erase, erase. rewrite Hit. run_simpl.
  rewrite decide_True by done. run_simpl.
  unfold byId_erase. run_simpl. by rewrite He.
Qed.


(** ** The two indexes agree in every state the calls leave *)

Lemma consistent_empty : consistent Warehouse.empty.
Proof.
  split.
  - split; [constructor|constructor].
  - intros k e. simpl. by rewrite lookup_empty.
  - simpl. by intros n ?%elem_of_nil.
Qed.

(** The iterator an entry caches designates a node of the container. *)
Lemma cached_iterator_valid (w : Warehouse.t) (k : string) (e : ProductWithMeta) :
  consistent w → mProductsWithMetasById w !! k = Some e →
  ∃ i, it_productsByProducer (meta e) = at_node i
       ∧ i ∈ ident <$> mProductsByProducer w.
Proof.
  intros Hc He. destruct (consistent_entries _ _ Hc k e He) as (a & i & _ & _ & Hit & Hin).
  exists i. split; [done|]. by apply (list_elem_of_fmap_2 ident) in Hin.
Qed.

Lemma consistent_added (a : address) (w : Warehouse.t) :
  consistent w →
  mProductsWithMetasById w !! Product.id (pointee a) = None →
  consistent (added a w).
Proof.
  intros [Hwf Hent Hnod] Hnone. split; unfold added; simpl.
  - by apply insert_upper_wf.
  - intros k e. destruct (decide (Product.id (pointee a) = k)) as [<-|Hne].
    + rewrite lookup_insert_eq. intros [= <-].
      exists a, (fresh (mProductsByProducer w)). simpl.
      repeat split. apply elem_of_insert_upper. by left.
    + rewrite lookup_insert_ne by done. intros He.
      destruct (Hent k e He) as (b & i & Hp & Hid & Hit & Hin).
      exists b, i. simpl. repeat split; try done.
      apply elem_of_insert_upper. by right.
  - intros n [->|Hin]%elem_of_insert_upper.
    + exists a. simpl. repeat split. by rewrite lookup_insert_eq.
    + destruct (Hnod n Hin) as (b & Hs & Hf & Hb).
      exists b. simpl. repeat split; try done.
      rewrite lookup_insert_ne; [done|]. intros Heq. rewrite <-Heq in Hb. congruence.
Qed.

Lemma consistent_removed (id : string) (e : ProductWithMeta) (i : positive)
    (w : Warehouse.t) :
  consistent w →
  mProductsWithMetasById w !! id = Some e →
  it_productsByProducer (meta e) = at_node i →
  consistent (removed id i w).
Proof.
  intros [Hwf Hent Hnod] He Hit. split; unfold removed; simpl.
  - by apply filter_wf.
  - intros k e'. destruct (decide (id = k)) as [<-|Hne].
    + by rewrite lookup_delete_eq.
    + rewrite lookup_delete_ne by done. intros He'.
      destruct (Hent k e' He') as (b & j & Hp & Hid & Hj & Hin).
      exists b, j. simpl. repeat split; try done.
      apply list_elem_of_filter. split; [|done]. simpl. intros ->.
      destruct (Hnod _ Hin) as (b' & Hs & _ & Hb). simpl in Hs, Hb.
      injection Hs as <-. rewrite Hid in Hb. apply Hne.
      destruct (Hent id e He) as (c & j' & Hpc & Hidc & Hj' & Hinc).
      rewrite Hit in Hj'. injection Hj' as <-.
      assert (Node i (Product.producer (pointee c)) (Some c)
              = Node i (Product.producer (pointee b)) (Some b)) as [= _ ->].
      { eapply node_ident_inj; [apply Hwf|done..]. }
      congruence.
  - intros n [Hni Hin]%list_elem_of_filter.
    destruct (Hnod n Hin) as (b & Hs & Hf & Hb).
    exists b. simpl. repeat split; try done.
    rewrite lookup_delete_ne; [done|]. intros ->.
    rewrite He in Hb. injection Hb as ->. simpl in Hit. congruence.
Qed.

(** ** Calls, one after the other *)

Lemma run_bind {A B : Type} (p : prog A) (k : A → prog B) (w : Warehouse.t) :
  run (bind p k) w
  = match run p w with
    | Ok (a, w') => run (k a) w'
    | AssertionFailure => AssertionFailure
    | Undefined => Undefined
    end.
Proof.
  revert w. induction p as [a| |p IH|p IH|C f g IH]; intros w; simpl; try done.
  - destruct (mMutex w); [done|apply IH].
  - destruct (mMutex w); [apply IH|done].
  - destruct (f w) as [[b w']| |]; [apply IH|done..].
Qed.

(** Every call with its precondition returns, as [call_spec] says. *)
Lemma run_invoke (c : call) (w : Warehouse.t) :
  idle w → consistent w → call_valid c →
  ∃ r w', run (invoke c) w = Ok (r, w') ∧ call_spec w c r w'.
Proof.
  intros Hm Hc Hv. destruct c as [[a|]|id|producer|id]; simpl in Hv; try done;
    unfold Warehouse.invoke; rewrite run_bind.
  - destruct (mProductsWithMetasById w !! Product.id (pointee a)) as [e|] eqn:E.
    + rewrite (run_AddProduct_dup a w e Hm E). simpl. eauto using spec_add_dup.
    + rewrite (run_AddProduct_new a w Hm E). simpl. eauto using spec_add_new.
  - rewrite (run_FindProductById id w Hm). simpl. eauto using spec_find_id.
  - rewrite (run_FindProductsByProducer producer [] w Hm (consistent_wf _ _ Hc)).
    simpl. eauto using spec_find_producer.
  - destruct (mProductsWithMetasById w !! id) as [e|] eqn:E.
    + destruct (cached_iterator_valid w id e Hc E) as (i & Hit & Hi).
      rewrite (run_RemoveProductById_present id w e i Hm E Hit Hi). simpl.
      eauto using spec_remove_present.
    + rewrite (run_RemoveProductById_absent id w Hm E). simpl.
      eauto using spec_remove_absent.
Qed.

Lemma run_invoke_inv (c : call) (w : Warehouse.t) (r : retval) (w' : Warehouse.t) :
  idle w → consistent w → run (invoke c) w = Ok (r, w') → call_spec w c r w'.
Proof.
  intros Hm Hc Hrun.
  assert (call_valid c) as Hv by (by destruct c as [[?|]| | |]).
  destruct (run_invoke c w Hm Hc Hv) as (r0 & w0 & Hrun0 & Hspec).
  rewrite Hrun in Hrun0. by injection Hrun0 as -> ->.
Qed.

Lemma call_spec_preserves (c : call) (w : Warehouse.t) (r : retval) (w' : Warehouse.t) :
  idle w → consistent w → call_spec w c r w' → idle w' ∧ consistent w'.
Proof.
  intros Hm Hc. destruct 1; try done.
  - split; [done|]. by apply consistent_added.
  - split; [done|]. by eapply consistent_removed.
Qed.

Lemma exec_cons_inv (c : call) (cs : list call) (w : Warehouse.t)
    (rs : list retval) (w' : Warehouse.t) :
  exec (c :: cs) w = Ok (rs, w') →
  ∃ r w1 rs', run (invoke c) w = Ok (r, w1) ∧ exec cs w1 = Ok (rs', w')
              ∧ rs = r :: rs'.
Proof.
  cbn [Warehouse.exec]. destruct (run (invoke c) w) as [[r w1]| |]; try done.
  destruct (exec cs w1) as [[rs' w'']| |] eqn:E; try done.
  intros [= <- <-]. by exists r, w1, rs'.
Qed.

Lemma exec_cons (c : call) (cs : list call) (w w1 w' : Warehouse.t)
    (r : retval) (rs : list retval) :
  run (invoke c) w = Ok (r, w1) → exec cs w1 = Ok (rs, w') →
  exec (c :: cs) w = Ok (r :: rs, w').
Proof. intros Hrun Hexec. cbn [Warehouse.exec]. by rewrite Hrun, Hexec. Qed.

Lemma exec_preserves (cs : list call) (w : Warehouse.t)
    (rs : list retval) (w' : Warehouse.t) :
  idle w → consistent w → exec cs w = Ok (rs, w') → idle w' ∧ consistent w'.
Proof.
  revert w rs. induction cs as [|c cs IH]; intros w rs Hm Hc.
  - by intros [= _ <-].
  - intros (r & w1 & rs' & Hrun & Hexec & _)%exec_cons_inv.
    apply run_invoke_inv in Hrun; [|done..].
    destruct (call_spec_preserves _ _ _ _ Hm Hc Hrun). by eapply IH.
Qed.

Lemma exec_total (cs : list call) (w : Warehouse.t) :
  idle w → consistent w → Forall call_valid cs →
  ∃ rs w', exec cs w = Ok (rs, w').
Proof.
  revert w. induction cs as [|c cs IH]; intros w Hm Hc Hv.
  - by exists [], w.
  - apply Forall_cons in Hv as [Hv Hvs].
    destruct (run_invoke c w Hm Hc Hv) as (r & w1 & Hrun & Hspec).
    destruct (call_spec_preserves _ _ _ _ Hm Hc Hspec) as [Hm1 Hc1].
    destruct (IH w1 Hm1 Hc1 Hvs) as (rs & w' & Hexec).
    exists (r :: rs), w'. cbn [Warehouse.exec]. by rewrite Hrun, Hexec.
Qed.

(** A state the warehouse can be in between two calls: what some sequence of
    calls leaves of a default-constructed warehouse. *)
Lemma reachable_consistent (cs : list call) (rs : list retval) (w : Warehouse.t) :
  exec cs Warehouse.empty = Ok (rs, w) → idle w ∧ consistent w.
Proof. apply exec_preserves; [done|apply consistent_empty]. Qed.


(** ** What the queries see of a consistent state *)

Lemma lookup_id_Some (w : Warehouse.t) (id : string) (a : address) :
  consistent w → lookup_id id w = Some a →
  Product.id (pointee a) = id ∧ present a w
  ∧ ∃ i, mProductsWithMetasById w !! id
         = Some {| pProduct := Some a;
                   meta := {| it_productsByProducer := at_node i |} |}
         ∧ Node i (Product.producer (pointee a)) (Some a) ∈ mProductsByProducer w.
Proof.
  intros Hc. unfold lookup_id.
  destruct (mProductsWithMetasById w !! id) as [e|] eqn:E; [|done]. intros Hp.
  destruct (consistent_entries _ _ Hc id e E) as (b & i & Hb & Hid & Hit & Hin).
  assert (b = a) as -> by congruence.
  split; [done|]. split; [by exists id, e|].
  exists i. split; [|done]. destruct e as [? [?]]. simpl in *. by subst.
Qed.

Lemma lookup_id_None (w : Warehouse.t) (id : string) :
  consistent w →
  lookup_id id w = None ↔ mProductsWithMetasById w !! id = None.
Proof.
  intros Hc. unfold lookup_id.
  destruct (mProductsWithMetasById w !! id) as [e|] eqn:E; [|done].
  destruct (consistent_entries _ _ Hc id e E) as (b & i & Hb & _).
  rewrite Hb. split; discriminate.
Qed.

Lemma present_lookup_id (w : Warehouse.t) (a : address) :
  consistent w →
  present a w ↔ lookup_id (Product.id (pointee a)) w = Some a.
Proof.
  intros Hc. split.
  - intros (k & e & He & Hp).
    destruct (consistent_entries _ _ Hc k e He) as (b & i & Hb & Hid & _).
    assert (b = a) as -> by congruence. subst k.
    unfold lookup_id. by rewrite He.
  - intros H. by apply lookup_id_Some in H as (_ & ? & _).
Qed.

(** A node holds a product exactly when the product is present, and then
    under the product's producer. *)
Lemma elem_of_nodes (w : Warehouse.t) (n : node) :
  consistent w → n ∈ mProductsByProducer w →
  ∃ a, second n = Some a ∧ first n = Product.producer (pointee a) ∧ present a w
       ∧ mProductsWithMetasById w !! Product.id (pointee a)
         = Some {| pProduct := Some a;
                   meta := {| it_productsByProducer := at_node (ident n) |} |}.
Proof.
  intros Hc Hin. destruct (consistent_nodes _ _ Hc n Hin) as (a & Hs & Hf & He).
  exists a. repeat split; try done. by eexists _, _.
Qed.

(** Two nodes never hold the same product. *)
Lemma node_second_inj (w : Warehouse.t) (n n' : node) :
  consistent w → n ∈ mProductsByProducer w → n' ∈ mProductsByProducer w →
  second n = second n' → n = n'.
Proof.
  intros Hc Hn Hn' Heq.
  destruct (elem_of_nodes w n Hc Hn) as (a & Hs & _ & _ & He).
  destruct (elem_of_nodes w n' Hc Hn') as (a' & Hs' & _ & _ & He').
  assert (a' = a) as -> by congruence.
  rewrite He in He'. injection He' as Hid.
  eapply node_ident_inj; [apply (consistent_wf _ _ Hc)|done..].
Qed.

Lemma present_node (w : Warehouse.t) (a : address) :
  consistent w → present a w →
  ∃ i, Node i (Product.producer (pointee a)) (Some a) ∈ mProductsByProducer w
       ∧ mProductsWithMetasById w !! Product.id (pointee a)
         = Some {| pProduct := Some a;
                   meta := {| it_productsByProducer := at_node i |} |}.
Proof.
  intros Hc Hp. apply present_lookup_id in Hp; [|done].
  apply lookup_id_Some in Hp as (_ & _ & i & He & Hin); [|done]. by exists i.
Qed.

Lemma elem_of_group (w : Warehouse.t) (producer : string) (p : ProductPtr) :
  consistent w →
  p ∈ second <$> group producer w
  ↔ ∃ a, p = Some a ∧ present a w ∧ Product.producer (pointee a) = producer.
Proof.
  intros Hc. unfold group. rewrite list_elem_of_fmap. split.
  - intros (n & -> & [Hk Hin]%list_elem_of_filter).
    destruct (elem_of_nodes w n Hc Hin) as (a & Hs & Hf & Hp & _).
    exists a. repeat split; [done..|congruence].
  - intros (a & -> & Hp & Hprod).
    destruct (present_node w a Hc Hp) as (i & Hin & _).
    eexists. split; [|apply list_elem_of_filter; split; [|exact Hin]]; done.
Qed.

Lemma NoDup_group (w : Warehouse.t) (producer : string) :
  consistent w → NoDup (second <$> group producer w).
Proof.
  intros Hc. apply NoDup_fmap_2_strong.
  - intros n n' [_ Hn]%list_elem_of_filter [_ Hn']%list_elem_of_filter.
    by apply (node_second_inj w).
  - apply NoDup_filter. eapply NoDup_fmap_1. apply (consistent_wf _ _ Hc).
Qed.

Lemma group_size_bound (w : Warehouse.t) (producer : string) :
  Z.of_nat (length (group producer w)) ≤ multimap.size (mProductsByProducer w).
Proof. unfold group, multimap.size. pose proof (length_filter (λ x, first x = producer) (mProductsByProducer w)). lia. Qed.


(** ** The state a successful call leaves *)

Lemma lookup_id_added (a : address) (w : Warehouse.t) (id : string) :
  lookup_id id (added a w)
  = if decide (Product.id (pointee a) = id) then Some a else lookup_id id w.
Proof.
  unfold lookup_id, added. simpl. case_decide as E.
  - subst id. by rewrite lookup_insert_eq.
  - by rewrite lookup_insert_ne.
Qed.

Lemma group_added_ne (a : address) (w : Warehouse.t) (producer : string) :
  Product.producer (pointee a) ≠ producer →
  group producer (added a w) = group producer w.
Proof. intros Hne. unfold group, added. simpl. by apply filter_key_insert_upper_ne. Qed.

Lemma group_added_eq (a : address) (w : Warehouse.t) :
  consistent w →
  group (Product.producer (pointee a)) (added a w)
  = group (Product.producer (pointee a)) w
    ++ [Node (fresh (mProductsByProducer w)) (Product.producer (pointee a)) (Some a)].
Proof.
  intros Hc. unfold group, added. simpl.
  apply (filter_key_insert_upper_eq (Node _ _ _)). apply (consistent_wf _ _ Hc).
Qed.

Lemma lookup_id_removed (id : string) (i : positive) (w : Warehouse.t) (y : string) :
  lookup_id y (removed id i w) = if decide (id = y) then None else lookup_id y w.
Proof.
  unfold lookup_id, removed. simpl. case_decide as E.
  - subst y. by rewrite lookup_delete_eq.
  - by rewrite lookup_delete_ne.
Qed.

Lemma filter_group_erased (a : address) (i : positive) (producer : string)
    (m : multimap.t) :
  Forall (λ n, ident n = i ↔ second n = Some a) m →
  second <$> filter (λ x, first x = producer) (filter (λ x, ident x ≠ i) m)
  = filter (λ p, p ≠ Some a) (second <$> filter (λ x, first x = producer) m).
Proof.
  induction 1 as [|n m Hn _ IH]; [done|].
  rewrite (filter_cons (λ x, ident x ≠ i)), (filter_cons (λ x, first x = producer) n m).
  destruct (decide (ident n ≠ i)) as [Hne|Heq].
  - rewrite (filter_cons (λ x, first x = producer)).
    destruct (decide (first n = producer)); [|done].
    rewrite !fmap_cons, filter_cons, decide_True by tauto. by rewrite IH.
  - destruct (decide (first n = producer)); [|done].
    rewrite fmap_cons, filter_cons, decide_False; [done|].
    intros Hs. apply Hs, Hn. by destruct (decide (ident n = i)).
Qed.

(** Erasing the node of a product takes the product, and nothing else, out
    of what the secondary index yields. *)
Lemma group_removed (a : address) (i : positive) (w : Warehouse.t)
    (producer : string) :
  consistent w →
  mProductsWithMetasById w !! Product.id (pointee a)
    = Some {| pProduct := Some a; meta := {| it_productsByProducer := at_node i |} |} →
  second <$> group producer (removed (Product.id (pointee a)) i w)
  = filter (λ p, p ≠ Some a) (second <$> group producer w).
Proof.
  intros Hc He. unfold group, removed. simpl. apply filter_group_erased.
  apply Forall_forall. intros n Hn.
  destruct (elem_of_nodes w n Hc Hn) as (b & Hs & _ & _ & Hb). split.
  - intros <-. destruct (consistent_entries _ _ Hc _ _ He) as (c & j & Hpc & _ & Hj & Hin).
    simpl in Hpc, Hj. injection Hpc as <-. injection Hj as <-.
    assert (Node (ident n) (Product.producer (pointee a)) (Some a) = n) as <-; [|done].
    eapply node_ident_inj; [apply (consistent_wf _ _ Hc)|done..].
  - intros Hsa. rewrite Hs in Hsa. injection Hsa as ->. rewrite He in Hb.
    by injection Hb as ->.
Qed.

Lemma absent_iff (w : Warehouse.t) (id : string) :
  consistent w →
  mProductsWithMetasById w !! id = None
  ↔ ∀ b, present b w → Product.id (pointee b) ≠ id.
Proof.
  intros Hc. split.
  - intros Hnone b Hb%present_lookup_id Hid; [|done]. subst id.
    unfold lookup_id in Hb. by rewrite Hnone in Hb.
  - intros Hall. destruct (mProductsWithMetasById w !! id) as [e|] eqn:E; [|done].
    destruct (consistent_entries _ _ Hc id e E) as (b & i & Hb & Hid & _).
    exfalso. apply (Hall b); [|done]. by exists id, e.
Qed.

Lemma run_FindProductsByProducer_group (producer : string) (out : list ProductPtr)
    (w : Warehouse.t) :
  idle w → consistent w →
  ∃ cntFound,
    run (FindProductsByProducer producer out) w
    = Ok ((cntFound, out ++ (second <$> group producer w)), w).
Proof.
  intros Hm Hc. eexists.
  apply (run_FindProductsByProducer producer out w Hm (consistent_wf _ _ Hc)).
Qed.

(** ** The claims about one thread of calls *)

(** C1. In every state that a sequence of calls leaves of an empty warehouse,
    [FindProductsByProducer(producer, out)] returns with the state as it was;
    what it wrote through [out] has no duplicates and holds exactly the
    products that are present and whose [producer] field is the one asked
    for; the count it returns is the number of products written, the
    container holding fewer than [SIZE_MAX + 1] nodes as every
    [std::multimap] does; and the count is 0, with nothing written, when no
    present product matches. *)
Theorem FindProductsByProducer_exact (cs : list call) (rs : list retval)
    (w : Warehouse.t) (producer : string) (out : list ProductPtr) :
  exec cs Warehouse.empty = Ok (rs, w) →
  ∃ (cntFound : Z) (written : list ProductPtr),
    run (FindProductsByProducer producer out) w = Ok ((cntFound, out ++ written), w)
    ∧ NoDup written
    ∧ (∀ p : ProductPtr,
         p ∈ written
         ↔ ∃ a, p = Some a ∧ present a w
                ∧ Product.producer (pointee a) = producer)
    ∧ (multimap.size (mProductsByProducer w) < SIZE_MAX1 →
       cntFound = Z.of_nat (length written))
    ∧ ((∀ a, present a w → Product.producer (pointee a) ≠ producer) →
       cntFound = 0 ∧ written = []).
Proof.
  intros [Hm Hc]%reachable_consistent.
  exists (Z.of_nat (length (group producer w)) mod SIZE_MAX1),
         (second <$> group producer w).
  pose proof (group_size_bound w producer) as Hle.
  split; [|split; [|split; [|split]]].
  - apply (run_FindProductsByProducer producer out w Hm (consistent_wf _ _ Hc)).
  - by apply NoDup_group.
  - intros p. by apply elem_of_group.
  - intros Hsize. rewrite length_fmap. apply Z.mod_small.
    unfold multimap.size in *. lia.
  - intros Hnone. destruct (group producer w) as [|n g] eqn:E; [done|].
    exfalso. assert (second n ∈ second <$> group producer w) as Hin.
    { rewrite E. rewrite fmap_cons. left. }
    apply elem_of_group in Hin as (a & _ & Hp & Hprod); [|done].
    by apply (Hnone a).
Qed.

(** C2. In every state that a sequence of calls leaves of an empty warehouse,
    each slot of the primary index holds a product; a present product is
    held by exactly one node of the secondary index, under its own producer,
    and by exactly one slot of the primary index, under its own id, and that
    slot caches the iterator of that node; and each node of the secondary
    index holds a present product. *)
Theorem cross_index_consistency (cs : list call) (rs : list retval)
    (w : Warehouse.t) :
  exec cs Warehouse.empty = Ok (rs, w) →
  (∀ k e, mProductsWithMetasById w !! k = Some e → ∃ a, pProduct e = Some a)
  ∧ (∀ a, present a w →
       ∃ i, nodes_of a w = [Node i (Product.producer (pointee a)) (Some a)]
            ∧ slots_of a w
              = [(Product.id (pointee a),
                  {| pProduct := Some a;
                     meta := {| it_productsByProducer := at_node i |} |})])
  ∧ (∀ n, n ∈ mProductsByProducer w → ∃ a, second n = Some a ∧ present a w).
Proof.
  intros [Hm Hc]%reachable_consistent. split; [|split].
  - intros k e He.
    destruct (consistent_entries _ _ Hc k e He) as (a & _ & Ha & _). by exists a.
  - intros a Hp. destruct (present_node w a Hc Hp) as (i & Hin & He).
    exists i. split.
    + apply NoDup_all_equal.
      * apply NoDup_filter. eapply NoDup_fmap_1. apply (consistent_wf _ _ Hc).
      * apply list_elem_of_filter. by split.
      * intros n [Hs Hn]%list_elem_of_filter. by apply (node_second_inj w).
    + apply NoDup_all_equal.
      * apply NoDup_filter, NoDup_map_to_list.
      * apply list_elem_of_filter. split; [done|]. by apply elem_of_map_to_list.
      * intros [k e] [Hs Hke%elem_of_map_to_list]%list_elem_of_filter. simpl in Hs.
        destruct (consistent_entries _ _ Hc k e Hke) as (b & j & Hb & Hid & _).
        assert (b = a) as -> by congruence. subst k. rewrite He in Hke.
        by injection Hke as <-.
  - intros n Hn. destruct (elem_of_nodes w n Hc Hn) as (a & Hs & _ & Hp & _).
    by exists a.
Qed.


(** C3. In every state that a sequence of calls leaves of an empty warehouse,
    and for every non-empty pointer: when no present product has the id of
    the pointed product, [AddProduct] returns [true] and leaves the pointer
    in both indexes ([FindProductById] of its id and
    [FindProductsByProducer] of its producer yield it); when a present
    product has that id, [AddProduct] returns [false] and leaves the state
    as it was, the product of that id being the one it was; and no two
    present products have the same id. *)
Theorem AddProduct_inserts_or_rejects (cs : list call) (rs : list retval)
    (w : Warehouse.t) (a : address) :
  exec cs Warehouse.empty = Ok (rs, w) →
  ((∀ b, present b w → Product.id (pointee b) ≠ Product.id (pointee a)) →
     ∃ w', run (AddProduct (Some a)) w = Ok (true, w')
           ∧ run (FindProductById (Product.id (pointee a))) w' = Ok (Some a, w')
           ∧ ∃ cntFound out,
               run (FindProductsByProducer (Product.producer (pointee a)) []) w'
               = Ok ((cntFound, out), w')
               ∧ Some a ∈ out)
  ∧ (∀ b, present b w → Product.id (pointee b) = Product.id (pointee a) →
       run (AddProduct (Some a)) w = Ok (false, w)
       ∧ run (FindProductById (Product.id (pointee a))) w = Ok (Some b, w))
  ∧ (∀ b c, present b w → present c w →
       Product.id (pointee b) = Product.id (pointee c) → b = c).
Proof.
  intros [Hm Hc]%reachable_consistent. split; [|split].
  - intros Hnone%absent_iff; [|done].
    exists (added a w). split; [by apply run_AddProduct_new|].
    assert (consistent (added a w)) as Hc' by (by apply consistent_added).
    assert (idle (added a w)) as Hm' by done.
    split.
    + rewrite (run_FindProductById _ _ Hm'), lookup_id_added. by rewrite decide_True.
    + destruct (run_FindProductsByProducer_group (Product.producer (pointee a)) []
                  (added a w) Hm' Hc') as (cnt & Hrun).
      eexists _, _. split; [exact Hrun|].
      rewrite app_nil_l, group_added_eq, fmap_app by done.
      apply elem_of_app. right. simpl. left.
  - intros b Hb Hid. destruct (present_node w b Hc Hb) as (i & _ & He).
    rewrite Hid in He. split; [by eapply run_AddProduct_dup|].
    rewrite (run_FindProductById _ _ Hm). unfold lookup_id. by rewrite He.
  - intros b c Hb%present_lookup_id Hd%present_lookup_id Hid; [|done..].
    rewrite Hid in Hb. congruence.
Qed.

(** C4. In every state that a sequence of calls leaves of an empty warehouse:
    when a present product has the id, [RemoveProductById] returns 1, and in
    the state it leaves [FindProductById] of the id returns the empty
    pointer, [FindProductsByProducer] of the product's producer does not
    yield the product, and neither index holds the product; when no present
    product has the id, it returns 0 and leaves the state as it was; it
    always returns, and returns 0 or 1. *)
Theorem RemoveProductById_removes_or_ignores (cs : list call) (rs : list retval)
    (w : Warehouse.t) (id : string) :
  exec cs Warehouse.empty = Ok (rs, w) →
  (∀ a, present a w → Product.id (pointee a) = id →
     ∃ w', run (RemoveProductById id) w = Ok (1, w')
           ∧ run (FindProductById id) w' = Ok (None, w')
           ∧ (∃ cntFound out,
                run (FindProductsByProducer (Product.producer (pointee a)) []) w'
                = Ok ((cntFound, out), w')
                ∧ Some a ∉ out)
           ∧ ¬ present a w'
           ∧ nodes_of a w' = [])
  ∧ ((∀ a, present a w → Product.id (pointee a) ≠ id) →
       run (RemoveProductById id) w = Ok (0, w))
  ∧ (∃ n w', run (RemoveProductById id) w = Ok (n, w') ∧ (n = 0 ∨ n = 1)).
Proof.
  intros [Hm Hc]%reachable_consistent.
  assert (∀ a, present a w → Product.id (pointee a) = id →
     ∃ w', run (RemoveProductById id) w = Ok (1, w')
           ∧ run (FindProductById id) w' = Ok (None, w')
           ∧ (∃ cntFound out,
                run (FindProductsByProducer (Product.producer (pointee a)) []) w'
                = Ok ((cntFound, out), w')
                ∧ Some a ∉ out)
           ∧ ¬ present a w'
           ∧ nodes_of a w' = []) as Hpresent.
  { intros a Ha <-. destruct (present_node w a Hc Ha) as (i & Hin & He).
    apply (list_elem_of_fmap_2 ident) in Hin as Hi. simpl in Hi.
    exists (removed (Product.id (pointee a)) i w).
    assert (consistent (removed (Product.id (pointee a)) i w)) as Hc'
      by (by eapply consistent_removed).
    assert (idle (removed (Product.id (pointee a)) i w)) as Hm' by done.
    assert (¬ present a (removed (Product.id (pointee a)) i w)) as Hgone.
    { intros Hp%present_lookup_id; [|done].
      rewrite lookup_id_removed, decide_True in Hp by done. discriminate. }
    split; [by eapply run_RemoveProductById_present|]. split; [|split; [|split]].
    - rewrite (run_FindProductById _ _ Hm'), lookup_id_removed.
      by rewrite decide_True.
    - destruct (run_FindProductsByProducer_group (Product.producer (pointee a)) []
                  _ Hm' Hc') as (cnt & Hrun).
      eexists _, _. split; [exact Hrun|]. rewrite app_nil_l.
      intros (b & [= <-] & Hp & _)%elem_of_group; [|done]. by apply Hgone.
    - done.
    - unfold nodes_of. destruct (filter _ _) as [|n l] eqn:E; [done|]. exfalso.
      assert (n ∈ filter (λ n, second n = Some a)
                (mProductsByProducer (removed (Product.id (pointee a)) i w))) as Hn
        by (rewrite E; left).
      apply list_elem_of_filter in Hn as [Hs Hn].
      destruct (elem_of_nodes _ n Hc' Hn) as (b & Hsb & _ & Hp & _).
      apply Hgone. congruence. }
  split; [exact Hpresent|]. split.
  - intros Hnone%absent_iff; [|done]. by apply run_RemoveProductById_absent.
  - destruct (mProductsWithMetasById w !! id) as [e|] eqn:E.
    + destruct (consistent_entries _ _ Hc id e E) as (a & i & Ha & Hid & _).
      destruct (Hpresent a) as (w' & Hrun & _); [by exists id, e|done|].
      exists 1, w'. split; [done|by right].
    + exists 0, w. split; [by apply run_RemoveProductById_absent|by left].
Qed.


Lemma last_change_exec (x : string) (cs : list call) :
  ∀ (w : Warehouse.t) (rs : list retval) (w' : Warehouse.t) (recent : option change),
  idle w → consistent w → exec cs w = Ok (rs, w') →
  (recent = Some Added ↔ lookup_id x w ≠ None) →
  (last_change x cs rs recent = Some Added ↔ lookup_id x w' ≠ None).
Proof.
  induction cs as [|c cs IH]; intros w rs w' recent Hm Hc.
  - by intros [= <- <-].
  - intros (r & w1 & rs' & Hrun & Hexec & ->)%exec_cons_inv Hrecent.
    apply run_invoke_inv in Hrun; [|done..].
    destruct (call_spec_preserves _ _ _ _ Hm Hc Hrun) as [Hm1 Hc1].
    cbn [last_change]. apply (IH w1); [done..|].
    destruct Hrun as [a Ha|a e Ha|id|producer|id e i He Hi|id He];
      cbn [change_of]; try done.
    + rewrite lookup_id_added. case_decide; [done|]. exact Hrecent.
    + rewrite lookup_id_removed. case_decide; [done|]. exact Hrecent.
Qed.

(** C5. In every state that a sequence of calls leaves of an empty warehouse,
    [FindProductById(x)] returns and leaves the state as it was, and the
    pointer it returns is non-empty exactly when the most recent call of the
    sequence that changed the presence of id [x] (an [AddProduct] of that id
    that returned [true], a [RemoveProductById] of it that returned 1) is an
    [AddProduct]. *)
Theorem FindProductById_tracks_history (cs : list call) (rs : list retval)
    (w : Warehouse.t) (x : string) :
  exec cs Warehouse.empty = Ok (rs, w) →
  ∃ p : ProductPtr,
    run (FindProductById x) w = Ok (p, w)
    ∧ (p ≠ None ↔ last_change x cs rs None = Some Added).
Proof.
  intros Hexec. destruct (reachable_consistent _ _ _ Hexec) as [Hm Hc].
  exists (lookup_id x w). split; [by apply run_FindProductById|].
  symmetry. eapply last_change_exec; [| |exact Hexec|]; [done|apply consistent_empty|].
  unfold lookup_id. simpl. rewrite lookup_empty. split; [discriminate|done].
Qed.

(** C6. In every state that a sequence of calls leaves of an empty warehouse,
    three calls of [RemoveProductById] in a row with the id of a present
    product return 1, 0 and 0, and the second and the third leave the state
    as the first left it. *)
Theorem RemoveProductById_idempotent (cs : list call) (rs : list retval)
    (w : Warehouse.t) (a : address) :
  exec cs Warehouse.empty = Ok (rs, w) →
  present a w →
  ∃ w', run (RemoveProductById (Product.id (pointee a))) w = Ok (1, w')
        ∧ run (RemoveProductById (Product.id (pointee a))) w' = Ok (0, w')
        ∧ exec [Call_RemoveProductById (Product.id (pointee a));
                Call_RemoveProductById (Product.id (pointee a));
                Call_RemoveProductById (Product.id (pointee a))] w
          = Ok ([Ret_count 1; Ret_count 0; Ret_count 0], w').
Proof.
  intros [Hm Hc]%reachable_consistent Ha.
  destruct (present_node w a Hc Ha) as (i & Hin & He).
  apply (list_elem_of_fmap_2 ident) in Hin as Hi. simpl in Hi.
  set (id := Product.id (pointee a)) in *.
  exists (removed id i w).
  assert (run (RemoveProductById id) w = Ok (1, removed id i w)) as H1
    by (by eapply run_RemoveProductById_present).
  assert (run (RemoveProductById id) (removed id i w) = Ok (0, removed id i w)) as H2.
  { apply run_RemoveProductById_absent; [done|]. simpl. apply lookup_delete_eq. }
  split; [done|]. split; [done|].
  assert (run (invoke (Call_RemoveProductById id)) w
          = Ok (Ret_count 1, removed id i w)) as H1'
    by (unfold Warehouse.invoke; by rewrite run_bind, H1).
  assert (run (invoke (Call_RemoveProductById id)) (removed id i w)
          = Ok (Ret_count 0, removed id i w)) as H2'
    by (unfold Warehouse.invoke; by rewrite run_bind, H2).
  repeat (eapply exec_cons; [eassumption|]). done.
Qed.

(** C7. In every state that a sequence of calls leaves of an empty warehouse:
    an [AddProduct] of an id that is present returns [false], a
    [RemoveProductById] of an id that is not present returns 0, a
    [FindProductById] of such an id returns the empty pointer, a
    [FindProductsByProducer] of a producer of no present product returns 0
    and writes nothing, each leaving the state as it was; an [AddProduct]
    of the empty pointer fails its assertion; every other call returns, so
    a call fails exactly when it is an [AddProduct] of the empty pointer. *)
Theorem negative_outcomes_are_values (cs : list call) (rs : list retval)
    (w : Warehouse.t) :
  exec cs Warehouse.empty = Ok (rs, w) →
  (∀ a b, present b w → Product.id (pointee b) = Product.id (pointee a) →
     run (AddProduct (Some a)) w = Ok (false, w))
  ∧ (∀ id, (∀ b, present b w → Product.id (pointee b) ≠ id) →
       run (RemoveProductById id) w = Ok (0, w)
       ∧ run (FindProductById id) w = Ok (None, w))
  ∧ (∀ producer out, (∀ b, present b w → Product.producer (pointee b) ≠ producer) →
       run (FindProductsByProducer producer out) w = Ok ((0, out), w))
  ∧ run (AddProduct None) w = AssertionFailure
  ∧ (∀ c, call_valid c → ∃ r w', run (invoke c) w = Ok (r, w'))
  ∧ (∀ c, (∀ r w', run (invoke c) w ≠ Ok (r, w')) ↔ c = Call_AddProduct None).
Proof.
  intros [Hm Hc]%reachable_consistent.
  split; [|split; [|split; [|split; [|split]]]].
  - intros a b Hb Hid. destruct (present_node w b Hc Hb) as (i & _ & He).
    rewrite Hid in He. by eapply run_AddProduct_dup.
  - intros id Hnone%absent_iff; [|done]. split.
    + by apply run_RemoveProductById_absent.
    + rewrite (run_FindProductById _ _ Hm). unfold lookup_id. by rewrite Hnone.
  - intros producer out Hnone.
    rewrite (run_FindProductsByProducer producer out w Hm (consistent_wf _ _ Hc)).
    destruct (group producer w) as [|n g] eqn:E.
    + simpl. by rewrite app_nil_r.
    + exfalso. assert (second n ∈ second <$> group producer w) as Hin.
      { rewrite E, fmap_cons. left. }
      apply elem_of_group in Hin as (b & _ & Hp & Hprod); [|done].
      by apply (Hnone b).
  - done.
  - intros c Hv. destruct (run_invoke c w Hm Hc Hv) as (r & w' & Hrun & _). eauto.
  - intros c. split.
    + intros Hfail.
      assert (¬ call_valid c) as Hv.
      { intros Hv. destruct (run_invoke c w Hm Hc Hv) as (r & w' & Hrun & _).
        by apply (Hfail r w'). }
      by destruct c as [[a|]|id|producer|id].
    + intros -> r w'. discriminate.
Qed.


Lemma run_AddProduct_inv (a : address) (w : Warehouse.t) (b : bool) (w' : Warehouse.t) :
  idle w → run (AddProduct (Some a)) w = Ok (b, w') →
  (b = true ∧ mProductsWithMetasById w !! Product.id (pointee a) = None
   ∧ w' = added a w)
  ∨ (b = false ∧ is_Some (mProductsWithMetasById w !! Product.id (pointee a))
     ∧ w' = w).
Proof.
  intros Hm. destruct (mProductsWithMetasById w !! Product.id (pointee a)) as [e|] eqn:E.
  - rewrite (run_AddProduct_dup a w e Hm E). intros [= <- <-]. right. eauto.
  - rewrite (run_AddProduct_new a w Hm E). intros [= <- <-]. by left.
Qed.

Lemma lookup_id_kept (x : string) (a : address) (cs : list call) :
  ∀ (w : Warehouse.t) (rs : list retval) (w' : Warehouse.t),
  idle w → consistent w → exec cs w = Ok (rs, w') →
  Call_RemoveProductById x ∉ cs →
  lookup_id x w = Some a → lookup_id x w' = Some a.
Proof.
  induction cs as [|c cs IH]; intros w rs w' Hm Hc.
  - by intros [= _ <-].
  - intros (r & w1 & rs' & Hrun & Hexec & ->)%exec_cons_inv Hnot Hx.
    apply not_elem_of_cons in Hnot as [Hc0 Hnot].
    apply run_invoke_inv in Hrun; [|done..].
    destruct (call_spec_preserves _ _ _ _ Hm Hc Hrun) as [Hm1 Hc1].
    apply (IH w1 rs' w'); [done..|].
    destruct Hrun as [b Hb|b e Hb|id|producer|id e i He Hi|id He]; try done.
    + rewrite lookup_id_added. case_decide as E; [|done].
      subst x. unfold lookup_id in Hx. by rewrite Hb in Hx.
    + rewrite lookup_id_removed. case_decide as E; [|done]. by subst id.
Qed.

Lemma filter_ne_not_in {A : Type} `{EqDecision A} (x : A) (l : list A) :
  x ∉ l → filter (λ y, y ≠ x) l = l.
Proof.
  induction l as [|y l IH]; [done|].
  intros [Hne Hl]%not_elem_of_cons. rewrite filter_cons, decide_True by done.
  by rewrite IH.
Qed.

(** C9. After an [AddProduct] of a pointer that returned [true], and
    whatever calls follow it other than a [RemoveProductById] of the id of
    the pointed product, [FindProductById] of that id returns that same
    pointer, and [FindProductsByProducer] of the producer of the pointed
    product writes that same pointer. *)
Theorem handle_identity (cs : list call) (rs : list retval) (w : Warehouse.t)
    (a : address) (w1 : Warehouse.t)
    (cs' : list call) (rs' : list retval) (w2 : Warehouse.t) :
  exec cs Warehouse.empty = Ok (rs, w) →
  run (AddProduct (Some a)) w = Ok (true, w1) →
  exec cs' w1 = Ok (rs', w2) →
  Call_RemoveProductById (Product.id (pointee a)) ∉ cs' →
  run (FindProductById (Product.id (pointee a))) w2 = Ok (Some a, w2)
  ∧ ∃ cntFound out,
      run (FindProductsByProducer (Product.producer (pointee a)) []) w2
      = Ok ((cntFound, out), w2)
      ∧ Some a ∈ out.
Proof.
  intros [Hm Hc]%reachable_consistent Hadd Hexec Hnot.
  apply run_AddProduct_inv in Hadd as [(_ & Hnone & ->)|(? & _)]; [|done..].
  assert (consistent (added a w)) as Hc1 by (by apply consistent_added).
  assert (idle (added a w)) as Hm1 by done.
  destruct (exec_preserves _ _ _ _ Hm1 Hc1 Hexec) as [Hm2 Hc2].
  assert (lookup_id (Product.id (pointee a)) w2 = Some a) as Hl.
  { eapply lookup_id_kept; [exact Hm1|exact Hc1|exact Hexec|exact Hnot|].
    rewrite lookup_id_added. by rewrite decide_True. }
  split.
  - by rewrite (run_FindProductById _ _ Hm2), Hl.
  - destruct (run_FindProductsByProducer_group (Product.producer (pointee a)) []
                w2 Hm2 Hc2) as (cnt & Hrun).
    eexists _, _. split; [exact Hrun|]. rewrite app_nil_l.
    apply elem_of_group; [done|]. exists a. repeat split.
    by apply present_lookup_id.
Qed.

(** C10. In every state that a sequence of calls leaves of an empty
    warehouse: an [AddProduct] that returns [true] changes neither what
    [FindProductById] returns for another id nor what
    [FindProductsByProducer] returns and writes for another producer; a
    [RemoveProductById] of a present product changes neither of these
    either, and of what [FindProductsByProducer] writes for the producer of
    the removed product it takes out that product and leaves the rest, in
    its order. *)
Theorem add_remove_frame (cs : list call) (rs : list retval) (w : Warehouse.t)
    (a : address) (w' : Warehouse.t) :
  exec cs Warehouse.empty = Ok (rs, w) →
  (run (AddProduct (Some a)) w = Ok (true, w')
   ∨ (present a w ∧ run (RemoveProductById (Product.id (pointee a))) w = Ok (1, w'))) →
  (∀ y, y ≠ Product.id (pointee a) →
     ∃ p, run (FindProductById y) w = Ok (p, w)
          ∧ run (FindProductById y) w' = Ok (p, w'))
  ∧ (∀ producer out, producer ≠ Product.producer (pointee a) →
       ∃ found, run (FindProductsByProducer producer out) w = Ok (found, w)
                ∧ run (FindProductsByProducer producer out) w' = Ok (found, w'))
  ∧ (present a w →
     ∃ cntFound cntFound' written,
       run (FindProductsByProducer (Product.producer (pointee a)) []) w
       = Ok ((cntFound, written), w)
       ∧ run (FindProductsByProducer (Product.producer (pointee a)) []) w'
         = Ok ((cntFound', filter (λ p, p ≠ Some a) written), w')).
Proof.
  intros [Hm Hc]%reachable_consistent [Hadd|[Ha Hrem]].
  - apply run_AddProduct_inv in Hadd as [(_ & Hnone & ->)|(? & _)]; [|done..].
    assert (consistent (added a w)) as Hc' by (by apply consistent_added).
    assert (idle (added a w)) as Hm' by done.
    split; [|split].
    + intros y Hy. exists (lookup_id y w).
      rewrite !run_FindProductById, lookup_id_added by done.
      by rewrite decide_False.
    + intros producer out Hp. eexists.
      rewrite (run_FindProductsByProducer _ _ w Hm (consistent_wf _ _ Hc)),
        (run_FindProductsByProducer _ _ _ Hm' (consistent_wf _ _ Hc')).
      by rewrite group_added_ne.
    + intros Ha. exfalso. apply present_lookup_id in Ha; [|done].
      unfold lookup_id in Ha. by rewrite Hnone in Ha.
  - destruct (present_node w a Hc Ha) as (i & Hin & He).
    apply (list_elem_of_fmap_2 ident) in Hin as Hi. simpl in Hi.
    rewrite (run_RemoveProductById_present _ w _ i Hm He eq_refl Hi) in Hrem.
    injection Hrem as <-.
    set (w' := removed (Product.id (pointee a)) i w).
    assert (consistent w') as Hc' by (by eapply consistent_removed).
    assert (idle w') as Hm' by done.
    assert (∀ producer, producer ≠ Product.producer (pointee a) →
            second <$> group producer w' = second <$> group producer w) as Hother.
    { intros producer Hp. unfold w'. rewrite (group_removed a i w producer Hc He).
      apply filter_ne_not_in. intros (b & [= <-] & _ & Hb)%elem_of_group; done. }
    split; [|split].
    + intros y Hy. exists (lookup_id y w).
      rewrite !run_FindProductById by done. unfold w'.
      rewrite lookup_id_removed. by rewrite decide_False.
    + intros producer out Hp. eexists.
      rewrite (run_FindProductsByProducer _ _ w Hm (consistent_wf _ _ Hc)),
        (run_FindProductsByProducer _ _ _ Hm' (consistent_wf _ _ Hc')).
      rewrite <-(length_fmap second (group producer w')), (Hother producer Hp).
      by rewrite length_fmap.
    + intros _. eexists _, _, _.
      rewrite (run_FindProductsByProducer _ _ w Hm (consistent_wf _ _ Hc)),
        (run_FindProductsByProducer _ _ _ Hm' (consistent_wf _ _ Hc')).
      split; [done|]. rewrite !app_nil_l. unfold w' at 2.
      by rewrite (group_removed a i w _ Hc He).
Qed.


(** ** Several threads *)

(** The container calls leave the mutex alone. *)
Ltac mutex_kept :=
  let H := fresh in
  intros ? ? ? H;
  unfold byId_emplace, byId_find, byId_deref, byId_set_meta, byId_erase,
    byProducer_emplace, byProducer_equal_range, byProducer_erase, traverse in H;
  repeat case_match; simplify_eq; done.

Ltac critical_code :=
  repeat first
    [ progress cbn [bind critical]
    | match goal with
      | |- _ ∧ _ => split; [mutex_kept|intros ?]
      | |- context [match ?x with _ => _ end] => is_var x; destruct x
      | |- True => exact I
      end ].

(** The code of a call: lock, run with the mutex locked, unlock, return. *)
Lemma invoke_critical (c : call) :
  call_valid c → ∃ k, invoke c = Lock k ∧ critical k.
Proof.
  intros Hv. destruct c as [[a|]|id|producer|id]; simpl in Hv; try done;
    (eexists; split; [reflexivity|]); critical_code.
Qed.


Lemma exec_snoc (cs : list call) (c : call) (w w1 w2 : Warehouse.t)
    (rs : list retval) (r : retval) :
  exec cs w = Ok (rs, w1) → run (invoke c) w1 = Ok (r, w2) →
  exec (cs ++ [c]) w = Ok (rs ++ [r], w2).
Proof.
  revert w rs. induction cs as [|c0 cs IH]; intros w rs.
  - intros [= <- <-] Hrun. simpl. by rewrite Hrun.
  - intros (r0 & w0 & rs' & Hrun0 & Hexec & ->)%exec_cons_inv Hrun.
    simpl. eapply exec_cons; [exact Hrun0|]. by apply IH.
Qed.

Lemma log_threads_elem (log : list (nat * call * retval)) (i : nat) :
  i ∈ log_threads log ↔ ∃ c r, (i, c, r) ∈ log.
Proof.
  unfold log_threads. rewrite list_elem_of_fmap. split.
  - intros ([[i' c] r] & -> & Hin). by exists c, r.
  - intros (c & r & Hin). by exists (i, c, r).
Qed.

(** A thread that waits for a locked mutex takes no step. *)
Lemma no_step_waiting (c : call) (w : Warehouse.t) :
  call_valid c → mMutex w = true → thread_step (invoke c) w = None.
Proof.
  intros (k & -> & _)%invoke_critical Hm. simpl. by rewrite Hm.
Qed.

Lemma step_invariant_init : step_invariant (Warehouse.empty, []).
Proof.
  left. split; [done|]. exists []. split.
  - constructor.
  - done.
  - by intros i c r ?%elem_of_nil.
  - by intros i c p ?.
Qed.

Lemma step_invariant_spawn (w : Warehouse.t) (ts : list thread) (c : call) :
  call_valid c → step_invariant (w, ts) → step_invariant (w, ts ++ [(c, invoke c)]).
Proof.
  intros Hv [[Hm [log [Hnd Hexec Hret Hrest]]]|(log & w_seq & j & [Hnd Hexec Hret Hrest Hm Hj Hth])];
    simpl in *.
  - left. split; [done|]. exists log. split; try done.
    + intros i c0 r Hin. apply lookup_app_l_Some. by apply Hret.
    + intros i c0 p [Hi|[_ Hi]]%lookup_app_Some Hnot; [by eapply Hrest|].
      apply list_lookup_singleton_Some in Hi as [_ [= <- <-]]. done.
  - right. exists log, w_seq, j. split; try done.
    + intros i c0 r Hin. apply lookup_app_l_Some. by apply Hret.
    + intros i c0 p [Hi|[_ Hi]]%lookup_app_Some Hnot Hij; [by eapply Hrest|].
      apply list_lookup_singleton_Some in Hi as [_ [= <- <-]]. done.
    + destruct Hth as (c0 & p & Hp & ?). exists c0, p. split; [|done].
      by apply lookup_app_l_Some.
Qed.


(** A thread takes the mutex: it had not started, and is now the holder. *)
Lemma step_invariant_enter (w : Warehouse.t) (ts : list thread) (i : nat)
    (c : call) (p p' : prog retval) (w' : Warehouse.t)
    (log : list (nat * call * retval)) :
  mMutex w = false → linearization w ts log →
  ts !! i = Some (c, p) → thread_step p w = Some (w', p') →
  linearization_held w' (<[i := (c, p')]> ts) log w i.
Proof.
  intros Hm [Hnd Hexec Hret Hrest] Hi Hstep.
  assert (i ∉ log_threads log) as Hnot.
  { intros (c0 & r & Hin)%log_threads_elem. apply Hret in Hin.
    rewrite Hi in Hin. injection Hin as <- ->. discriminate. }
  destruct (Hrest i c p Hi Hnot) as [-> Hv].
  destruct (invoke_critical c Hv) as (k & Hk & Hcrit).
  rewrite Hk in Hstep. simpl in Hstep. rewrite Hm in Hstep.
  injection Hstep as <- <-. split; try done.
  - intros i0 c0 r Hin. rewrite list_lookup_insert_ne; [by apply Hret|].
    intros <-. apply Hnot, log_threads_elem. eauto.
  - intros i0 c0 p0 Hi0 Hnot0 Hne. rewrite list_lookup_insert_ne in Hi0 by done.
    by eapply Hrest.
  - exists c, k. split; [|split; [done|split; [done|]]].
    + apply list_lookup_insert_eq. by eapply lookup_lt_Some.
    + rewrite Hk. cbn [run]. by rewrite Hm.
Qed.

(** While a thread holds the mutex, it is the only one that takes steps;
    a container call keeps it the holder, its [Unlock] completes its call,
    which goes to the end of the log. *)
Lemma step_invariant_holder (w : Warehouse.t) (ts : list thread) (i : nat)
    (c : call) (p p' : prog retval) (w' : Warehouse.t)
    (log : list (nat * call * retval)) (w_seq : Warehouse.t) (j : nat) :
  linearization_held w ts log w_seq j →
  ts !! i = Some (c, p) → thread_step p w = Some (w', p') →
  i = j
  ∧ ((mMutex w' = false ∧ ∃ r, linearization w' (<[i := (c, p')]> ts) (log ++ [(i, c, r)]))
     ∨ linearization_held w' (<[i := (c, p')]> ts) log w_seq j).
Proof.
  intros [Hnd Hexec Hret Hrest Hm Hj (c0 & p0 & Hj0 & Hv & Hcrit & Hrun)] Hi Hstep.
  assert (i = j) as ->.
  { destruct (decide (i = j)) as [|Hne]; [done|]. exfalso.
    destruct (decide (i ∈ log_threads log)) as [Hin|Hnot].
    - apply log_threads_elem in Hin as (c1 & r & Hin). apply Hret in Hin.
      rewrite Hi in Hin. injection Hin as <- ->. discriminate.
    - destruct (Hrest i c p Hi Hnot Hne) as [-> Hvc].
      by rewrite no_step_waiting in Hstep. }
  split; [done|]. rewrite Hi in Hj0. injection Hj0 as <- <-.
  assert (j < length ts)%nat as Hlen by (by eapply lookup_lt_Some).
  destruct (reachable_consistent _ _ _ Hexec) as [Hm_seq Hc_seq].
  destruct (run_invoke c w_seq Hm_seq Hc_seq Hv) as (r & w_end & Hend & _).
  destruct p as [r0| |k|k|B f k]; try done.
  - (* Unlock *)
    simpl in Hcrit. destruct k as [r0| | | |]; try done.
    simpl in Hstep. rewrite Hm in Hstep. injection Hstep as <- <-.
    cbn [run] in Hrun. rewrite Hm in Hrun. cbn [run] in Hrun.
    rewrite Hend in Hrun. injection Hrun as -> Hw.
    left. split; [done|]. exists r. split.
    + unfold log_threads. rewrite fmap_app. apply NoDup_app. split; [done|].
      split; [|apply NoDup_singleton].
      intros x Hx [->|[]%elem_of_nil]%elem_of_cons. done.
    + unfold log_calls, log_rets. rewrite !fmap_app. simpl.
      eapply exec_snoc; [exact Hexec|]. by rewrite Hw.
    + intros i0 c0 r0 [Hin|[= -> -> ->]%list_elem_of_singleton]%elem_of_app.
      * rewrite list_lookup_insert_ne; [by apply Hret|].
        intros <-. apply Hj, log_threads_elem. eauto.
      * by apply list_lookup_insert_eq.
    + intros i0 c0 p0 Hi0 Hnot0.
      assert (i0 ≠ j) as Hne.
      { intros ->. apply Hnot0. unfold log_threads. rewrite fmap_app.
        apply elem_of_app. right. simpl. left. }
      rewrite list_lookup_insert_ne in Hi0 by done.
      eapply Hrest; [done| |done]. intros Hin. apply Hnot0.
      unfold log_threads. rewrite fmap_app. apply elem_of_app. by left.
  - (* a container call *)
    simpl in Hstep. destruct (f w) as [[b w1]| |] eqn:Ef; try done.
    injection Hstep as <- <-. destruct Hcrit as [Hkept Hcrit].
    cbn [run] in Hrun. rewrite Ef in Hrun.
    right. split; try done.
    + intros i0 c0 r0 Hin. rewrite list_lookup_insert_ne; [by apply Hret|].
      intros <-. apply Hj, log_threads_elem. eauto.
    + intros i0 c0 p0 Hi0 Hnot0 Hne. rewrite list_lookup_insert_ne in Hi0 by done.
      by eapply Hrest.
    + rewrite (Hkept _ _ _ Ef). done.
    + exists c, (k b). split; [by apply list_lookup_insert_eq|]. done.
Qed.

Lemma step_invariant_step (cfg cfg' : Warehouse.t * list thread) :
  step_invariant cfg → step cfg cfg' → step_invariant cfg'.
Proof.
  intros Hinv Hstep. destruct Hstep as [w ts i c p w' p' Hi Hp|w ts c Hv].
  - destruct Hinv as [[Hm [log Hlin]]|(log & w_seq & j & Hheld)]; simpl in *.
    + right. exists log, w, i. by eapply step_invariant_enter.
    + destruct (step_invariant_holder _ _ _ _ _ _ _ _ _ _ Hheld Hi Hp)
        as [-> [[Hm' [r Hlin]]|Hheld']].
      * left. split; [done|]. by eexists.
      * right. by exists log, w_seq, j.
  - by apply step_invariant_spawn.
Qed.

Lemma reachable_invariant (cfg : Warehouse.t * list thread) :
  reachable cfg → step_invariant cfg.
Proof.
  unfold reachable. intros Hreach.
  apply rtc_ind_r with (P := step_invariant) in Hreach; [done| |].
  - apply step_invariant_init.
  - intros y z _ Hstep Hy. by eapply step_invariant_step.
Qed.


Lemma invoke_not_critical (c : call) :
  call_valid c → ¬ in_critical_section (invoke c).
Proof.
  intros Hv. destruct (invoke_critical c Hv) as (k & Hk & _). rewrite Hk. by intros [].
Qed.

Lemma critical_in_section {A : Type} (p : prog A) :
  critical p → in_critical_section p.
Proof. by destruct p. Qed.

(** A thread in its critical section: the mutex is locked, and no other
    thread is in its own. *)
Lemma mutual_exclusion (w : Warehouse.t) (ts : list thread) (i : nat)
    (c : call) (p : prog retval) :
  step_invariant (w, ts) → ts !! i = Some (c, p) → in_critical_section p →
  mMutex w = true
  ∧ ∀ j c' p', ts !! j = Some (c', p') → in_critical_section p' → j = i.
Proof.
  intros Hinv Hi Hp.
  assert (∀ log i c p,
            (∀ i c r, (i, c, r) ∈ log → ts !! i = Some (c, Return r)) →
            ts !! i = Some (c, p) → in_critical_section p →
            i ∉ log_threads log) as Hnot_logged.
  { intros log i0 c0 p0 Hret Hi0 Hp0 (c1 & r & Hin)%log_threads_elem.
    apply Hret in Hin. rewrite Hi0 in Hin. by injection Hin as <- ->. }
  destruct Hinv as [[Hm [log [Hnd Hexec Hret Hrest]]]|(log & w_seq & j & [Hnd Hexec Hret Hrest Hm Hj Hth])];
    simpl in *.
  - exfalso. destruct (Hrest i c p Hi) as [-> Hv]; [by eapply Hnot_logged|].
    by apply (invoke_not_critical c).
  - split; [done|].
    assert (∀ i c p, ts !! i = Some (c, p) → in_critical_section p → i = j) as Hholder.
    { intros i0 c0 p0 Hi0 Hp0. destruct (decide (i0 = j)) as [|Hne]; [done|exfalso].
      destruct (Hrest i0 c0 p0 Hi0) as [-> Hv]; [by eapply Hnot_logged|done|].
      by apply (invoke_not_critical c0). }
    intros j0 c' p' Hj0 Hp'. rewrite (Hholder i c p Hi Hp). by eapply Hholder.
Qed.

(** While the mutex is locked, only code in its critical section takes steps. *)
Lemma steps_while_locked (w : Warehouse.t) (ts : list thread) (i : nat)
    (c : call) (p : prog retval) :
  step_invariant (w, ts) → mMutex w = true → ts !! i = Some (c, p) →
  is_Some (thread_step p w) → in_critical_section p.
Proof.
  intros [[Hm _]|(log & w_seq & j & Hheld)] Hlocked Hi [[w' p'] Hstep]; simpl in *.
  - congruence.
  - destruct (step_invariant_holder _ _ _ _ _ _ _ _ _ _ Hheld Hi Hstep) as [-> _].
    destruct Hheld as [_ _ _ _ _ _ (c0 & p0 & Hj0 & _ & Hcrit & _)].
    rewrite Hi in Hj0. injection Hj0 as <- <-. by apply critical_in_section.
Qed.

(** No deadlock: while a call has not returned, some thread can take a step. *)
Lemma some_thread_steps (w : Warehouse.t) (ts : list thread) (i : nat)
    (c : call) (p : prog retval) :
  step_invariant (w, ts) → ts !! i = Some (c, p) → (∀ r, p ≠ Return r) →
  ∃ j c' p', ts !! j = Some (c', p') ∧ is_Some (thread_step p' w).
Proof.
  intros [[Hm [log [Hnd Hexec Hret Hrest]]]|(log & w_seq & j & [Hnd Hexec Hret Hrest Hm Hj Hth])]
    Hi Hp; simpl in *.
  - exists i, c, p. split; [done|].
    destruct (Hrest i c p Hi) as [-> Hv].
    { intros (c0 & r & Hin)%log_threads_elem. apply Hret in Hin.
      rewrite Hi in Hin. injection Hin as <- ->. by apply (Hp r). }
    destruct (invoke_critical c Hv) as (k & -> & _). simpl. rewrite Hm. eauto.
  - destruct Hth as (c0 & p0 & Hj0 & Hv & Hcrit & Hrun).
    exists j, c0, p0. split; [done|].
    destruct (reachable_consistent _ _ _ Hexec) as [Hm_seq Hc_seq].
    destruct (run_invoke c0 w_seq Hm_seq Hc_seq Hv) as (r & w_end & Hend & _).
    rewrite Hend in Hrun.
    destruct p0 as [r0| |k|k|B f k]; try done; simpl.
    + rewrite Hm. eauto.
    + cbn [run] in Hrun. destruct (f w) as [[b w1]| |]; [eauto|done..].
Qed.

(** One thread adding products of ids that differ, to a warehouse that has
    none of them: each call returns [true], each product is found under its
    id afterwards, and nothing else has become present. *)
Lemma exec_distinct_adds (cs : list call) :
  ∀ (w : Warehouse.t) (rs : list retval) (w' : Warehouse.t),
  idle w → consistent w → exec cs w = Ok (rs, w') →
  (∀ c, c ∈ cs →
     ∃ a, c = Call_AddProduct (Some a)
          ∧ mProductsWithMetasById w !! Product.id (pointee a) = None) →
  (∀ k1 k2 a b, cs !! k1 = Some (Call_AddProduct (Some a)) →
                cs !! k2 = Some (Call_AddProduct (Some b)) →
                Product.id (pointee a) = Product.id (pointee b) → k1 = k2) →
  Forall (λ r, r = Ret_bool true) rs
  ∧ (∀ a, Call_AddProduct (Some a) ∈ cs → lookup_id (Product.id (pointee a)) w' = Some a)
  ∧ (∀ a, present a w' → present a w ∨ Call_AddProduct (Some a) ∈ cs).
Proof.
  induction cs as [|c cs IH]; intros w rs w' Hm Hc Hexec Hadds Hdistinct.
  - injection Hexec as <- <-. split; [constructor|]. split; [|by left].
    by intros a ?%elem_of_nil.
  - apply exec_cons_inv in Hexec as (r & w1 & rs' & Hrun & Hexec & ->).
    destruct (Hadds c) as (a & -> & Hnone); [left|].
    unfold Warehouse.invoke in Hrun. rewrite run_bind in Hrun.
    rewrite (run_AddProduct_new a w Hm Hnone) in Hrun. injection Hrun as <- <-.
    assert (consistent (added a w)) as Hc1 by (by apply consistent_added).
    assert (idle (added a w)) as Hm1 by done.
    assert (Call_RemoveProductById (Product.id (pointee a)) ∉ cs) as Hnorem.
    { intros Hin. destruct (Hadds _ (list_elem_of_further _ _ _ Hin)) as (? & [=] & _). }
    destruct (IH (added a w) rs' w' Hm1 Hc1 Hexec) as (Hrs & Hfound & Hnew).
    + intros c Hin. destruct (Hadds c) as (b & -> & Hb); [by right|].
      exists b. split; [done|]. unfold added. simpl.
      rewrite lookup_insert_ne; [done|]. intros Hid.
      apply list_elem_of_lookup in Hin as [k Hk].
      by specialize (Hdistinct 0%nat (S k) a b eq_refl Hk Hid).
    + intros k1 k2 b1 b2 H1 H2 Hid.
      by specialize (Hdistinct (S k1) (S k2) b1 b2 H1 H2 Hid) as [= ->].
    + split; [by constructor|]. split.
      * intros b [[= <-]|Hin]%elem_of_cons; [|by apply Hfound].
        eapply lookup_id_kept; [exact Hm1|exact Hc1|exact Hexec|exact Hnorem|].
        rewrite lookup_id_added. by rewrite decide_True.
      * intros b Hb. destruct (Hnew b Hb) as [Hadded|Hin]; [|right; by right].
        apply present_lookup_id in Hadded; [|done].
        rewrite lookup_id_added in Hadded. case_decide as E.
        -- injection Hadded as <-. right. left.
        -- left. by apply present_lookup_id.
Qed.


Lemma log_calls_elem (log : list (nat * call * retval)) (c : call) :
  c ∈ log_calls log ↔ ∃ i r, (i, c, r) ∈ log.
Proof.
  unfold log_calls. rewrite list_elem_of_fmap. split.
  - intros ([[i c'] r] & -> & Hin). by exists i, r.
  - intros (i & r & Hin). by exists (i, c, r).
Qed.

Lemma present_empty (a : address) : ¬ present a Warehouse.empty.
Proof. intros (k & e & He & _). simpl in He. by rewrite lookup_empty in He. Qed.

(** The threads have all returned, and their calls were [AddProduct]s of
    products of ids that differ: none of the additions is lost. *)
Lemma no_lost_updates (w : Warehouse.t) (ts : list thread) (addrs : list address) :
  step_invariant (w, ts) →
  fst <$> ts = (λ a, Call_AddProduct (Some a)) <$> addrs →
  NoDup ((λ a, Product.id (pointee a)) <$> addrs) →
  (∀ i c p, ts !! i = Some (c, p) → ∃ r, p = Return r) →
  idle w ∧ consistent w
  ∧ (∀ i c p, ts !! i = Some (c, p) → p = Return (Ret_bool true))
  ∧ (∀ a, present a w ↔ a ∈ addrs).
Proof.
  intros Hinv Hcalls Hids Hall.
  assert (∀ i c p, ts !! i = Some (c, p) →
                   ∃ a, addrs !! i = Some a ∧ c = Call_AddProduct (Some a)) as Hcall.
  { intros i c p Hi. assert ((fst <$> ts) !! i = Some c) as Hc
      by (by rewrite list_lookup_fmap, Hi).
    rewrite Hcalls, list_lookup_fmap in Hc.
    destruct (addrs !! i) as [a|]; [|done]. injection Hc as <-. by exists a. }
  assert (∀ i a, addrs !! i = Some a →
                 ∃ p, ts !! i = Some (Call_AddProduct (Some a), p)) as Hthread.
  { intros i a Ha.
    assert ((fst <$> ts) !! i = Some (Call_AddProduct (Some a))) as Hc
      by (by rewrite Hcalls, list_lookup_fmap, Ha).
    rewrite list_lookup_fmap in Hc. destruct (ts !! i) as [[c p]|]; [|done].
    injection Hc as ->. by exists p. }
  destruct Hinv as [[Hm [log [Hnd Hexec Hret Hrest]]]|(log & w_seq & j & [_ _ _ _ _ _ Hth])];
    simpl in *.
  2:{ destruct Hth as (c & p & Hj & _ & Hcrit & _).
      destruct (Hall j c p Hj) as [r ->]. done. }
  destruct (reachable_consistent _ _ _ Hexec) as [_ Hc].
  assert (∀ i c p, ts !! i = Some (c, p) → ∃ r, (i, c, r) ∈ log) as Hcover.
  { intros i c p Hi. destruct (decide (i ∈ log_threads log)) as [Hin|Hnot].
    - apply log_threads_elem in Hin as (c' & r & Hin). exists r.
      pose proof (Hret _ _ _ Hin) as Hi'. rewrite Hi in Hi'. by injection Hi' as -> _.
    - exfalso. destruct (Hrest i c p Hi Hnot) as [-> Hv].
      destruct (Hall i c _ Hi) as [r Hr].
      destruct (invoke_critical c Hv) as (k & Hk & _). congruence. }
  destruct (exec_distinct_adds (log_calls log) Warehouse.empty (log_rets log) w)
    as (Hrs & Hfound & Hnew); [done|apply consistent_empty|done| | |].
  { intros c (i & r & Hin)%log_calls_elem.
    destruct (Hcall i c _ (Hret _ _ _ Hin)) as (a & _ & ->). by exists a. }
  { intros k1 k2 a b H1 H2 Hid. unfold log_calls in H1, H2.
    rewrite list_lookup_fmap in H1, H2.
    destruct (log !! k1) as [[[i1 c1] r1]|] eqn:E1; [|done].
    destruct (log !! k2) as [[[i2 c2] r2]|] eqn:E2; [|done].
    simpl in H1, H2. injection H1 as ->. injection H2 as ->.
    destruct (Hcall i1 _ _ (Hret _ _ _ (list_elem_of_lookup_2 _ _ _ E1)))
      as (a' & Ha & [= <-]).
    destruct (Hcall i2 _ _ (Hret _ _ _ (list_elem_of_lookup_2 _ _ _ E2)))
      as (b' & Hb & [= <-]).
    assert (i1 = i2) as <-.
    { eapply (NoDup_lookup _ i1 i2 (Product.id (pointee a))); [exact Hids|..].
      - by rewrite list_lookup_fmap, Ha.
      - by rewrite list_lookup_fmap, Hb, Hid. }
    eapply (NoDup_lookup _ k1 k2 i1); [exact Hnd|..].
    - unfold log_threads. by rewrite list_lookup_fmap, E1.
    - unfold log_threads. by rewrite list_lookup_fmap, E2. }
  split; [done|]. split; [done|]. split.
  - intros i c p Hi. destruct (Hcover i c p Hi) as [r Hin].
    pose proof (Hret _ _ _ Hin) as Hi'. rewrite Hi in Hi'. injection Hi' as ->.
    rewrite Forall_forall in Hrs. rewrite (Hrs r); [done|].
    unfold log_rets. apply list_elem_of_fmap. by exists (i, c, r).
  - intros a. split.
    + intros [Ha|Ha]%Hnew; [by apply present_empty in Ha|].
      apply log_calls_elem in Ha as (i & r & Hin).
      destruct (Hcall i _ _ (Hret _ _ _ Hin)) as (a' & Ha' & [= <-]).
      by eapply list_elem_of_lookup_2.
    + intros [i Ha]%list_elem_of_lookup.
      destruct (Hthread i a Ha) as [p Hi]. destruct (Hcover _ _ _ Hi) as [r Hin].
      apply present_lookup_id; [done|]. apply Hfound, log_calls_elem. eauto.
Qed.


(** C8. Whatever calls the callers start and however the threads interleave
    their steps: a thread whose next step reads or writes the containers, or
    unlocks, runs with the mutex locked and is the only such thread, and
    while the mutex is locked no other thread takes a step; while a call
    has not returned some thread can take a step; whenever the mutex is
    free the two indexes agree, the calls that have returned can be put in
    an order in which one thread making them one after the other gets the
    results they returned and the present state, and the other calls have
    not started; and when the calls were [AddProduct]s of products of ids
    that differ, fewer than [SIZE_MAX + 1] of them, and all have returned,
    each returned [true], each product is found under its id, and
    [FindProductsByProducer] yields exactly the products of the producer
    asked for and their number. *)
Theorem concurrent_calls_atomic (w : Warehouse.t) (ts : list thread) :
  reachable (w, ts) →
  (∀ i c p, ts !! i = Some (c, p) → in_critical_section p →
     mMutex w = true
     ∧ ∀ j c' p', ts !! j = Some (c', p') → in_critical_section p' → j = i)
  ∧ (∀ i c p, ts !! i = Some (c, p) → mMutex w = true →
       is_Some (thread_step p w) → in_critical_section p)
  ∧ (∀ i c p, ts !! i = Some (c, p) → (∀ r, p ≠ Return r) →
       ∃ j c' p', ts !! j = Some (c', p') ∧ is_Some (thread_step p' w))
  ∧ (mMutex w = false → consistent w ∧ ∃ log, linearization w ts log)
  ∧ (∀ addrs : list address,
       fst <$> ts = (λ a, Call_AddProduct (Some a)) <$> addrs →
       NoDup ((λ a, Product.id (pointee a)) <$> addrs) →
       Z.of_nat (length addrs) < SIZE_MAX1 →
       (∀ i c p, ts !! i = Some (c, p) → ∃ r, p = Return r) →
       (∀ i c p, ts !! i = Some (c, p) → p = Return (Ret_bool true))
       ∧ (∀ a, a ∈ addrs →
            run (FindProductById (Product.id (pointee a))) w = Ok (Some a, w))
       ∧ (∀ producer, ∃ written,
            run (FindProductsByProducer producer []) w
            = Ok ((Z.of_nat (length written), written), w)
            ∧ written
              ≡ₚ Some <$> filter (λ a, Product.producer (pointee a) = producer) addrs)).
Proof.
  intros Hinv%reachable_invariant. split; [|split; [|split; [|split]]].
  - intros i c p. by apply mutual_exclusion.
  - intros i c p Hi Hm. by eapply steps_while_locked.
  - intros i c p. by apply some_thread_steps.
  - intros Hm. destruct Hinv as [[_ [log Hlin]]|(log & w_seq & j & [_ _ _ _ Hheld _ _])];
      simpl in *; [|congruence].
    split; [|by exists log].
    by destruct (reachable_consistent _ _ _ (lin_exec _ _ _ _ Hlin)).
  - intros addrs Hcalls Hids Hsize Hall.
    destruct (no_lost_updates w ts addrs Hinv Hcalls Hids Hall)
      as (Hm & Hc & Hret & Hpresent).
    split; [done|]. split.
    + intros a Ha%Hpresent. rewrite (run_FindProductById _ _ Hm).
      by apply present_lookup_id in Ha as ->.
    + intros producer. exists (second <$> group producer w).
      assert (second <$> group producer w
              ≡ₚ Some <$> filter (λ a, Product.producer (pointee a) = producer) addrs)
        as Hperm.
      { apply NoDup_Permutation.
        - by apply NoDup_group.
        - apply NoDup_fmap_2; [apply _|]. apply NoDup_filter.
          by eapply NoDup_fmap_1.
        - intros p. rewrite elem_of_group by done. rewrite list_elem_of_fmap. split.
          + intros (a & -> & Ha%Hpresent & Hprod). exists a. split; [done|].
            by apply list_elem_of_filter.
          + intros (a & -> & [Hprod Ha%Hpresent]%list_elem_of_filter). by exists a. }
      split; [|done].
      rewrite (run_FindProductsByProducer producer [] w Hm (consistent_wf _ _ Hc)).
      rewrite app_nil_l, length_fmap, Z.mod_small; [done|].
      rewrite <-(length_fmap second), Hperm, length_fmap.
      pose proof (length_filter (λ a, Product.producer (pointee a) = producer) addrs).
      lia.
Qed.

Lemma schedule_reachable (es : list event) (cfg cfg' : Warehouse.t * list thread) :
  reachable cfg → schedule es cfg = Some cfg' → reachable cfg'.
Proof.
  revert cfg. induction es as [|e es IH]; intros cfg Hreach.
  - by intros [= <-].
  - simpl. destruct (schedule_step e cfg) as [cfg1|] eqn:E; [|done].
    apply IH. eapply rtc_r; [exact Hreach|].
    destruct cfg as [w ts]. destruct e as [i|c]; simpl in E.
    + destruct (ts !! i) as [[c p]|] eqn:Ei; [|done].
      destruct (thread_step p w) as [[w' p']|] eqn:Ep; [|done].
      injection E as <-. by eapply step_thread.
    + destruct c as [[a|]|id|producer|id]; try done; injection E as <-;
        by apply step_spawn.
Qed.

(** ** More on sequences of calls *)

Lemma filter_ident_all (i : positive) (m : multimap.t) :
  i ∉ ident <$> m → filter (λ x, ident x ≠ i) m = m.
Proof.
  induction m as [|x m IH]; [done|].
  rewrite fmap_cons. intros [Hx Hm]%not_elem_of_cons.
  rewrite filter_cons, decide_True by done. by rewrite IH.
Qed.

Lemma filter_insert_upper_fresh (i : positive) (k : string) (v : ProductPtr)
    (m : multimap.t) :
  i ∉ ident <$> m → filter (λ x, ident x ≠ i) (insert_upper (Node i k v) m) = m.
Proof.
  induction m as [|x m IH]; cbn [insert_upper first].
  - intros _. rewrite filter_cons. by rewrite decide_False by (simpl; tauto).
  - rewrite fmap_cons. intros [Hx Hm]%not_elem_of_cons.
    destruct (string_lt k (first x)).
    + rewrite filter_cons, decide_False by (simpl; tauto).
      apply (filter_ident_all i (x :: m)). rewrite fmap_cons.
      by apply not_elem_of_cons.
    + rewrite filter_cons, decide_True by done. by rewrite IH.
Qed.

(** Removing what was just added gives back the state. *)
Lemma removed_added (a : address) (w : Warehouse.t) :
  mProductsWithMetasById w !! Product.id (pointee a) = None →
  removed (Product.id (pointee a)) (fresh (mProductsByProducer w)) (added a w) = w.
Proof.
  intros Hnone. destruct w as [mu mm byid]. unfold removed, added. simpl in *.
  f_equal.
  - apply filter_insert_upper_fresh, fresh_not_in.
  - rewrite delete_insert_eq. by apply delete_id.
Qed.

Lemma present_added (a b : address) (w : Warehouse.t) :
  consistent w → mProductsWithMetasById w !! Product.id (pointee a) = None →
  present b (added a w) ↔ b = a ∨ present b w.
Proof.
  intros Hc Hnone.
  assert (consistent (added a w)) as Hc' by (by apply consistent_added).
  rewrite (present_lookup_id _ b Hc'), (present_lookup_id _ b Hc), lookup_id_added.
  case_decide as E; split.
  - intros [= ->]. by left.
  - intros [->|Hb]; [done|]. unfold lookup_id in Hb. rewrite <-E, Hnone in Hb. done.
  - by right.
  - intros [->|Hb]; [done|done].
Qed.

Lemma present_removed (a b : address) (i : positive) (w : Warehouse.t) :
  consistent w →
  mProductsWithMetasById w !! Product.id (pointee a)
    = Some {| pProduct := Some a; meta := {| it_productsByProducer := at_node i |} |} →
  present b (removed (Product.id (pointee a)) i w) ↔ present b w ∧ b ≠ a.
Proof.
  intros Hc He.
  assert (consistent (removed (Product.id (pointee a)) i w)) as Hc'
    by (by eapply consistent_removed).
  rewrite (present_lookup_id _ b Hc'), (present_lookup_id _ b Hc), lookup_id_removed.
  case_decide as E; split.
  - done.
  - intros [Hb Hne]. unfold lookup_id in Hb. rewrite <-E, He in Hb. simpl in Hb.
    congruence.
  - intros Hb. split; [done|]. by intros ->.
  - by intros [Hb _].
Qed.

Lemma length_filter_ident (i : positive) (m : multimap.t) :
  NoDup (ident <$> m) → i ∈ ident <$> m →
  S (length (filter (λ x, ident x ≠ i) m)) = length m.
Proof.
  induction m as [|x m IH]; [by intros _ ?%elem_of_nil|].
  rewrite fmap_cons. intros [Hx Hn]%NoDup_cons Hi. rewrite filter_cons.
  destruct (decide (ident x ≠ i)) as [Hne|Heq].
  - apply elem_of_cons in Hi as [->|Hi]; [done|]. simpl. by rewrite IH.
  - assert (ident x = i) as <- by (by destruct (decide (ident x = i))).
    by rewrite filter_ident_all.
Qed.

(** X1. In every state that a sequence of calls leaves of an empty warehouse,
    an [AddProduct] that returns [true] puts the pointer behind what
    [FindProductsByProducer] wrote for its producer before: the products of
    a producer come out in the order in which they were added. *)
Theorem AddProduct_appends_to_group (cs : list call) (rs : list retval)
    (w : Warehouse.t) (a : address) (w' : Warehouse.t) (out : list ProductPtr) :
  exec cs Warehouse.empty = Ok (rs, w) →
  run (AddProduct (Some a)) w = Ok (true, w') →
  ∃ cntFound cntFound' written,
    run (FindProductsByProducer (Product.producer (pointee a)) out) w
    = Ok ((cntFound, out ++ written), w)
    ∧ run (FindProductsByProducer (Product.producer (pointee a)) out) w'
      = Ok ((cntFound', out ++ written ++ [Some a]), w').
Proof.
  intros [Hm Hc]%reachable_consistent Hadd.
  apply run_AddProduct_inv in Hadd as [(_ & Hnone & ->)|(? & _)]; [|done..].
  assert (consistent (added a w)) as Hc' by (by apply consistent_added).
  assert (idle (added a w)) as Hm' by done.
  eexists _, _, _.
  rewrite (run_FindProductsByProducer _ _ w Hm (consistent_wf _ _ Hc)),
    (run_FindProductsByProducer _ _ _ Hm' (consistent_wf _ _ Hc')).
  split; [done|]. by rewrite group_added_eq, fmap_app.
Qed.

(** X2. In every state that a sequence of calls leaves of an empty warehouse,
    an [AddProduct] of a product whose id is not present followed by the
    [RemoveProductById] of that id returns [true], then 1, and leaves the
    warehouse as it was before the two calls. *)
Theorem add_then_remove_restores (cs : list call) (rs : list retval)
    (w : Warehouse.t) (a : address) :
  exec cs Warehouse.empty = Ok (rs, w) →
  (∀ b, present b w → Product.id (pointee b) ≠ Product.id (pointee a)) →
  exec [Call_AddProduct (Some a); Call_RemoveProductById (Product.id (pointee a))] w
  = Ok ([Ret_bool true; Ret_count 1], w).
Proof.
  intros [Hm Hc]%reachable_consistent Hnone%absent_iff; [|done].
  assert (idle (added a w)) as Hm' by done.
  eapply exec_cons.
  { unfold Warehouse.invoke. by rewrite run_bind, (run_AddProduct_new a w Hm Hnone). }
  eapply exec_cons; [|done].
  unfold Warehouse.invoke. rewrite run_bind.
  erewrite (run_RemoveProductById_present _ (added a w) _
              (fresh (mProductsByProducer w)) Hm').
  - by rewrite removed_added.
  - unfold added. simpl. apply lookup_insert_eq.
  - done.
  - unfold added. simpl. rewrite insert_upper_perm, fmap_cons. left.
Qed.

(** X3. In every state that a sequence of calls leaves of an empty warehouse,
    the [RemoveProductById] of the id of a present product followed by an
    [AddProduct] of a product of the same id returns 1, then [true]:
    afterwards [FindProductById] of that id returns the new pointer, and the
    old one, if it is another, is no longer present. *)
Theorem remove_then_add_replaces (cs : list call) (rs : list retval)
    (w : Warehouse.t) (a b : address) :
  exec cs Warehouse.empty = Ok (rs, w) →
  present a w →
  Product.id (pointee b) = Product.id (pointee a) →
  ∃ w', exec [Call_RemoveProductById (Product.id (pointee a));
              Call_AddProduct (Some b)] w
        = Ok ([Ret_count 1; Ret_bool true], w')
        ∧ run (FindProductById (Product.id (pointee a))) w' = Ok (Some b, w')
        ∧ (a ≠ b → ¬ present a w').
Proof.
  intros [Hm Hc]%reachable_consistent Ha Hid.
  destruct (present_node w a Hc Ha) as (i & Hin & He).
  apply (list_elem_of_fmap_2 ident) in Hin as Hi. simpl in Hi.
  set (w1 := removed (Product.id (pointee a)) i w).
  assert (consistent w1) as Hc1 by (by eapply consistent_removed).
  assert (idle w1) as Hm1 by done.
  assert (mProductsWithMetasById w1 !! Product.id (pointee b) = None) as Hnone.
  { rewrite Hid. unfold w1, removed. simpl. apply lookup_delete_eq. }
  exists (added b w1). split; [|split].
  - eapply exec_cons.
    { unfold Warehouse.invoke.
      by rewrite run_bind, (run_RemoveProductById_present _ w _ i Hm He eq_refl Hi). }
    eapply exec_cons; [|done]. fold w1.
    unfold Warehouse.invoke. by rewrite run_bind, (run_AddProduct_new b w1 Hm1 Hnone).
  - rewrite run_FindProductById by done. rewrite lookup_id_added, <-Hid.
    by rewrite decide_True.
  - intros Hne [->|Hp]%present_added; [done| |done..].
    apply (present_removed a a i w Hc He) in Hp as [_ ?]. done.
Qed.

Lemma call_spec_sizes (c : call) (w : Warehouse.t) (r : retval) (w' : Warehouse.t) :
  consistent w → call_spec w c r w' →
  length (mProductsByProducer w) = base.size (mProductsWithMetasById w) →
  length (mProductsByProducer w') = base.size (mProductsWithMetasById w').
Proof.
  intros Hc Hspec Hsize.
  destruct Hspec as [a Ha|a e Ha|id|producer|id e i He Hi|id He]; try done.
  - unfold added. simpl. rewrite insert_upper_perm. simpl.
    rewrite map_size_insert_None by done. by rewrite Hsize.
  - unfold removed. simpl.
    destruct (cached_iterator_valid w id e Hc He) as (j & Hj & Hin).
    assert (j = i) as -> by congruence.
    pose proof (length_filter_ident i _ (proj2 (consistent_wf _ _ Hc)) Hin) as Hlen.
    rewrite map_size_delete_Some by eauto. lia.
Qed.

(** X4. In every state that a sequence of calls leaves of an empty warehouse,
    the two containers hold the same number of elements. *)
Theorem indexes_same_size (cs : list call) (rs : list retval) (w : Warehouse.t) :
  exec cs Warehouse.empty = Ok (rs, w) →
  length (mProductsByProducer w) = base.size (mProductsWithMetasById w).
Proof.
  assert (∀ cs w0 rs w, idle w0 → consistent w0 →
            length (mProductsByProducer w0) = base.size (mProductsWithMetasById w0) →
            exec cs w0 = Ok (rs, w) →
            length (mProductsByProducer w) = base.size (mProductsWithMetasById w))
    as Hgen.
  { clear. induction cs as [|c cs IH]; intros w0 rs w Hm Hc Hsize.
    - by intros [= _ <-].
    - intros (r & w1 & rs' & Hrun & Hexec & _)%exec_cons_inv.
      apply run_invoke_inv in Hrun; [|done..].
      destruct (call_spec_preserves _ _ _ _ Hm Hc Hrun) as [Hm1 Hc1].
      eapply IH; [exact Hm1|exact Hc1| |exact Hexec].
      exact (call_spec_sizes _ _ _ _ Hc Hrun Hsize). }
  intros Hexec. eapply (Hgen cs Warehouse.empty); [done|apply consistent_empty| |exact Hexec].
  simpl. by rewrite map_size_empty.
Qed.

Lemma nothing_present_empty (w : Warehouse.t) :
  idle w → consistent w → (∀ a, ¬ present a w) → w = Warehouse.empty.
Proof.
  intros Hm Hc Hnone.
  destruct w as [mu mm byid]. unfold idle in Hm. simpl in Hm. subst mu.
  unfold Warehouse.empty. f_equal.
  - destruct mm as [|n mm]; [done|]. exfalso.
    destruct (elem_of_nodes _ n Hc) as (a & _ & _ & Ha & _); [left|].
    by apply (Hnone a).
  - apply map_eq. intros k. rewrite lookup_empty.
    destruct (byid !! k) as [e|] eqn:E; [|done]. exfalso.
    destruct (consistent_entries _ _ Hc k e E) as (a & i & Ha & _).
    apply (Hnone a). by exists k, e.
Qed.

(** X5. In every state that a sequence of calls leaves of an empty warehouse
    and in which no product is present, the warehouse is as a
    default-constructed one: the removals have left nothing behind in
    either container. *)
Theorem emptied_warehouse_is_empty (cs : list call) (rs : list retval)
    (w : Warehouse.t) :
  exec cs Warehouse.empty = Ok (rs, w) →
  (∀ a, ¬ present a w) →
  w = Warehouse.empty.
Proof. intros [Hm Hc]%reachable_consistent. by apply nothing_present_empty. Qed.

(** X6. In every state that a sequence of calls leaves of an empty warehouse,
    the two queries agree: the product that [FindProductById] returns has
    the id asked for and is among what [FindProductsByProducer] writes for
    its producer; and a pointer that [FindProductsByProducer] writes is not
    empty, its product has the producer asked for, and [FindProductById] of
    the id of that product returns that pointer. *)
Theorem queries_agree (cs : list call) (rs : list retval) (w : Warehouse.t) :
  exec cs Warehouse.empty = Ok (rs, w) →
  (∀ id a, run (FindProductById id) w = Ok (Some a, w) →
     Product.id (pointee a) = id
     ∧ ∃ cntFound out,
         run (FindProductsByProducer (Product.producer (pointee a)) []) w
         = Ok ((cntFound, out), w)
         ∧ Some a ∈ out)
  ∧ (∀ producer cntFound out p,
       run (FindProductsByProducer producer []) w = Ok ((cntFound, out), w) →
       p ∈ out →
       ∃ a, p = Some a
            ∧ Product.producer (pointee a) = producer
            ∧ run (FindProductById (Product.id (pointee a))) w = Ok (Some a, w)).
Proof.
  intros [Hm Hc]%reachable_consistent. split.
  - intros id a. rewrite (run_FindProductById _ _ Hm). intros [= Hl].
    apply lookup_id_Some in Hl as (Hid & Ha & _); [|done]. split; [done|].
    destruct (run_FindProductsByProducer_group (Product.producer (pointee a)) []
                w Hm Hc) as (cnt & Hrun).
    eexists _, _. split; [exact Hrun|]. rewrite app_nil_l.
    apply elem_of_group; [done|]. by exists a.
  - intros producer cnt out p.
    rewrite (run_FindProductsByProducer _ _ w Hm (consistent_wf _ _ Hc)).
    intros [= _ <-].
    intros (a & -> & Ha & Hprod)%elem_of_group; [|done].
    exists a. split; [done|]. split; [done|].
    rewrite (run_FindProductById _ _ Hm). by apply present_lookup_id in Ha as ->.
Qed.

(** ** The warehouse and the plain list *)

Lemma list_find_lookup_id (id : string) (l : list address) (w : Warehouse.t) :
  consistent w → represents l w → list_find id l = lookup_id id w.
Proof.
  intros Hc (Hnd & Hin & _). unfold list_find.
  destruct (lookup_id id w) as [a|] eqn:E.
  - apply lookup_id_Some in E as Ha; [|done]. destruct Ha as (Hid & Ha & _).
    rewrite (NoDup_all_equal (filter _ l) a); [done|by apply NoDup_filter| |].
    + apply list_elem_of_filter. split; [done|]. by apply Hin.
    + intros b [Hb Hbl%Hin]%list_elem_of_filter.
      apply present_lookup_id in Hbl; [|done]. rewrite Hb in Hbl. congruence.
  - destruct (filter _ l) as [|b f] eqn:Ef; [done|]. exfalso.
    assert (b ∈ filter (λ a, Product.id (pointee a) = id) l) as Hb
      by (rewrite Ef; left).
    apply list_elem_of_filter in Hb as [Hb Hbl%Hin].
    apply present_lookup_id in Hbl; [|done]. rewrite Hb in Hbl. congruence.
Qed.

Lemma represents_empty : represents [] Warehouse.empty.
Proof.
  split; [constructor|]. split; [|done].
  intros a. split; [by intros ?%elem_of_nil|by intros ?%present_empty].
Qed.

Lemma represents_added (a : address) (l : list address) (w : Warehouse.t) :
  consistent w → represents l w →
  mProductsWithMetasById w !! Product.id (pointee a) = None →
  represents (l ++ [a]) (added a w).
Proof.
  intros Hc (Hnd & Hin & Hgroup) Hnone. split; [|split].
  - apply NoDup_app. split; [done|]. split; [|apply NoDup_singleton].
    intros b Hb ->%list_elem_of_singleton. apply Hin, present_lookup_id in Hb; [|done].
    unfold lookup_id in Hb. by rewrite Hnone in Hb.
  - intros b. rewrite elem_of_app, list_elem_of_singleton, (present_added a b w Hc Hnone).
    rewrite Hin. tauto.
  - intros producer. rewrite filter_app, fmap_app, <-Hgroup.
    destruct (decide (Product.producer (pointee a) = producer)) as [<-|Hne].
    + rewrite (group_added_eq a w Hc), fmap_app. f_equal.
      rewrite filter_cons, decide_True by done. done.
    + rewrite (group_added_ne a w producer Hne).
      rewrite filter_cons, decide_False by done. by rewrite app_nil_r.
Qed.

Lemma filter_removed_list (a0 : address) (id : string) (P : address → Prop)
    `{∀ a, Decision (P a)} (l : list address) :
  (∀ b, b ∈ l → (b ≠ a0 ↔ Product.id (pointee b) ≠ id)) →
  filter (λ p, p ≠ Some a0) (Some <$> filter P l)
  = Some <$> filter P (filter (λ a, Product.id (pointee a) ≠ id) l).
Proof.
  induction l as [|b l IH]; [done|]. intros Hl.
  assert (b ≠ a0 ↔ Product.id (pointee b) ≠ id) as Hb by (apply Hl; left).
  assert (∀ c, c ∈ l → (c ≠ a0 ↔ Product.id (pointee c) ≠ id)) as Hl'
    by (intros c Hc; apply Hl; by right).
  specialize (IH Hl').
  rewrite (filter_cons P b l), (filter_cons (λ a, Product.id (pointee a) ≠ id) b l).
  destruct (decide (Product.id (pointee b) ≠ id)) as [Hne|Heq].
  - rewrite (filter_cons P b). destruct (decide (P b)); [|done].
    rewrite !fmap_cons, filter_cons, decide_True, IH; [done|].
    intros [= ->]. by apply Hb in Hne.
  - destruct (decide (P b)); [|done].
    rewrite fmap_cons, filter_cons, decide_False; [done|].
    intros Hs. apply Heq, Hb. congruence.
Qed.

Lemma represents_removed (a : address) (i : positive) (l : list address)
    (w : Warehouse.t) :
  consistent w → represents l w →
  mProductsWithMetasById w !! Product.id (pointee a)
    = Some {| pProduct := Some a; meta := {| it_productsByProducer := at_node i |} |} →
  represents (filter (λ b, Product.id (pointee b) ≠ Product.id (pointee a)) l)
             (removed (Product.id (pointee a)) i w).
Proof.
  intros Hc (Hnd & Hin & Hgroup) He.
  assert (∀ b, b ∈ l → (b ≠ a ↔ Product.id (pointee b) ≠ Product.id (pointee a)))
    as Hids.
  { intros b Hb%Hin. split; [|by intros ? ->].
    intros Hne Hid. apply Hne. apply present_lookup_id in Hb; [|done].
    unfold lookup_id in Hb. rewrite Hid, He in Hb. simpl in Hb. congruence. }
  split; [by apply NoDup_filter|]. split.
  - intros b. rewrite list_elem_of_filter, (present_removed a b i w Hc He). split.
    + intros [Hne Hb]. split; [by apply Hin|]. by apply Hids.
    + intros [Hb Hne]. apply Hin in Hb. split; [by apply Hids|done].
  - intros producer. rewrite (group_removed a i w producer Hc He), Hgroup.
    by apply filter_removed_list.
Qed.

(** A call on the warehouse and the same call on the list. *)
Lemma call_represented (c : call) (l : list address) (w : Warehouse.t)
    (r : retval) (w' : Warehouse.t) :
  idle w → consistent w → represents l w → run (invoke c) w = Ok (r, w') →
  ∃ l', list_call c l = Some (r, l') ∧ represents l' w'.
Proof.
  intros Hm Hc Hrep Hrun. apply run_invoke_inv in Hrun; [|done..].
  pose proof (λ id, list_find_lookup_id id l w Hc Hrep) as Hfind.
  destruct Hrun as [a Ha|a e Ha|id|producer|id e i He Hi|id He]; cbn [list_call].
  - rewrite Hfind. unfold lookup_id. rewrite Ha.
    eexists. split; [done|]. by apply represents_added.
  - rewrite Hfind. unfold lookup_id. rewrite Ha.
    destruct (consistent_entries _ _ Hc _ _ Ha) as (b & _ & -> & _). eauto.
  - rewrite Hfind. eauto.
  - destruct Hrep as (Hnd & Hin & Hgroup).
    rewrite <-(length_fmap second (group producer w)), Hgroup, length_fmap.
    eexists. split; [done|]. by split.
  - rewrite Hfind. unfold lookup_id. rewrite He.
    destruct (consistent_entries _ _ Hc _ _ He) as (a & j & Ha & <- & Hj & _).
    rewrite Ha. eexists. split; [done|].
    apply represents_removed; [done..|].
    rewrite He. destruct e as [? [?]]. simpl in *. congruence.
  - rewrite Hfind. unfold lookup_id. rewrite He. eauto.
Qed.

Lemma exec_represented (cs : list call) :
  ∀ (l : list address) (w : Warehouse.t),
  idle w → consistent w → represents l w →
  (∀ rs w', exec cs w = Ok (rs, w') →
     ∃ l', list_exec cs l = Some (rs, l') ∧ represents l' w')
  ∧ (exec cs w = AssertionFailure ↔ list_exec cs l = None)
  ∧ exec cs w ≠ Undefined.
Proof.
  induction cs as [|c cs IH]; intros l w Hm Hc Hrep.
  - split; [|done]. intros rs w' [= <- <-]. by exists l.
  - assert (c = Call_AddProduct None ∨ call_valid c) as [->|Hv]
      by (destruct c as [[a|]| | |]; (by left) || (by right)).
    { done. }
    destruct (run_invoke c w Hm Hc Hv) as (r & w1 & Hrun & Hspec).
    destruct (call_spec_preserves _ _ _ _ Hm Hc Hspec) as [Hm1 Hc1].
    destruct (call_represented c l w r w1 Hm Hc Hrep Hrun) as (l1 & Hcall & Hrep1).
    destruct (IH l1 w1 Hm1 Hc1 Hrep1) as (IHok & IHfail & IHub).
    cbn [Warehouse.exec list_exec]. rewrite Hrun, Hcall.
    destruct (exec cs w1) as [[rs w']| |] eqn:E.
    + destruct (IHok rs w' eq_refl) as (l' & -> & Hrep'). split; [|done].
      intros ? ? [= <- <-]. by exists l'.
    + rewrite (proj1 IHfail eq_refl). done.
    + done.
Qed.

Lemma list_exec_None (cs : list call) (l : list address) :
  list_exec cs l = None ↔ Call_AddProduct None ∈ cs.
Proof.
  revert l. induction cs as [|c cs IH]; intros l.
  - split; [done|by intros ?%elem_of_nil].
  - cbn [list_exec]. rewrite elem_of_cons.
    assert (c = Call_AddProduct None ∨ ∃ r l', list_call c l = Some (r, l'))
      as [->|(r & l' & Hcall)].
    { destruct c as [[a|]|id|producer|id]; cbn [list_call]; try (right; by eauto).
      - right. destruct (list_find _ l); eauto.
      - by left.
      - right. destruct (list_find _ l); eauto. }
    + split; [by left|done].
    + rewrite Hcall. specialize (IH l'). destruct (list_exec cs l') as [[rs l'']|].
      * split; [done|]. intros [Heq|Hin]; [by subst c|]. by apply IH in Hin.
      * split; [|done]. intros _. right. by apply IH.
Qed.

(** X7. A sequence of calls on an empty warehouse returns what the same
    calls return on a plain list of the present products, oldest first, on
    which [AddProduct] appends unless the id is there, [RemoveProductById]
    takes out the product of the id, [FindProductById] finds the product of
    the id and [FindProductsByProducer] filters by producer and counts
    modulo [SIZE_MAX + 1]; the list then holds the products present in the
    warehouse, each once, and under each producer in the order in which
    [FindProductsByProducer] writes them. The sequence fails an assertion
    exactly when one of its calls is an [AddProduct] of the empty pointer,
    and no step of it is undefined. *)
Theorem warehouse_refines_plain_list (cs : list call) :
  (∀ rs w, exec cs Warehouse.empty = Ok (rs, w) →
     ∃ l, list_exec cs [] = Some (rs, l) ∧ represents l w)
  ∧ (exec cs Warehouse.empty = AssertionFailure ↔ Call_AddProduct None ∈ cs)
  ∧ exec cs Warehouse.empty ≠ Undefined.
Proof.
  destruct (exec_represented cs [] Warehouse.empty) as (Hok & Hfail & Hub);
    [done|apply consistent_empty|apply represents_empty|].
  split; [exact Hok|]. split; [|exact Hub].
  etrans; [exact Hfail|apply list_exec_None].
Qed.

(** ** Adding and removing many products *)

Lemma list_find_None (id : string) (l : list address) :
  (∀ b, b ∈ l → Product.id (pointee b) ≠ id) → list_find id l = None.
Proof.
  intros Hl. unfold list_find.
  destruct (filter _ l) as [|b f] eqn:E; [done|]. exfalso.
  assert (b ∈ filter (λ a, Product.id (pointee a) = id) l) as Hb by (rewrite E; left).
  apply list_elem_of_filter in Hb as [Hb Hin]. by apply (Hl b).
Qed.

Lemma list_find_is_Some (a : address) (l : list address) :
  a ∈ l → is_Some (list_find (Product.id (pointee a)) l).
Proof.
  intros Ha. unfold list_find.
  destruct (filter _ l) as [|b f] eqn:E; [|by eexists].
  exfalso. eapply (filter_nil_not_elem_of _ l a E); done.
Qed.

Lemma list_exec_app (cs1 cs2 : list call) (l l1 l2 : list address)
    (rs1 rs2 : list retval) :
  list_exec cs1 l = Some (rs1, l1) → list_exec cs2 l1 = Some (rs2, l2) →
  list_exec (cs1 ++ cs2) l = Some (rs1 ++ rs2, l2).
Proof.
  revert l rs1. induction cs1 as [|c cs1 IH]; intros l rs1.
  - by intros [= <- <-].
  - cbn [list_exec app]. destruct (list_call c l) as [[r l']|]; [|done].
    destruct (list_exec cs1 l') as [[rs l'']|] eqn:E; [|done].
    intros [= <- <-] H2. by rewrite (IH _ _ E H2).
Qed.

(** On the list: products of ids that differ are all added. *)
Lemma list_exec_adds (l : list address) :
  ∀ l0, NoDup ((λ a, Product.id (pointee a)) <$> (l0 ++ l)) →
  list_exec (adds l) l0 = Some (replicate (length l) (Ret_bool true), l0 ++ l).
Proof.
  unfold adds. induction l as [|a l IH]; intros l0 Hnd.
  - by rewrite app_nil_r.
  - rewrite fmap_cons. cbn [list_exec list_call length replicate].
    rewrite list_find_None.
    + rewrite (IH (l0 ++ [a])); [|by rewrite <-app_assoc].
      by rewrite <-app_assoc.
    + intros b Hb Hid. rewrite fmap_app, fmap_cons in Hnd.
      apply NoDup_app in Hnd as (_ & Hdisj & _).
      apply (Hdisj (Product.id (pointee b))).
      * by apply (list_elem_of_fmap_2 (λ a, Product.id (pointee a))).
      * rewrite Hid. left.
Qed.

Lemma filter_other_ids (a : address) (l : list address) :
  Product.id (pointee a) ∉ (λ a, Product.id (pointee a)) <$> l →
  filter (λ b, Product.id (pointee b) ≠ Product.id (pointee a)) l = l.
Proof.
  induction l as [|b l IH]; [done|].
  rewrite fmap_cons. intros [Hb Hl]%not_elem_of_cons.
  rewrite filter_cons, decide_True by done. by rewrite IH.
Qed.

(** On the list: removing its products, in any order, empties it. *)
Lemma list_exec_removes (l' : list address) :
  ∀ l, NoDup ((λ a, Product.id (pointee a)) <$> l') → l' ≡ₚ l →
  list_exec (removes l') l = Some (replicate (length l') (Ret_count 1), []).
Proof.
  unfold removes. induction l' as [|a l' IH]; intros l Hnd Hperm.
  - apply Permutation_nil_l in Hperm. subst l. reflexivity.
  - rewrite fmap_cons in Hnd. apply NoDup_cons in Hnd as [Ha Hnd].
    rewrite fmap_cons. cbn [list_exec list_call length replicate].
    destruct (list_find_is_Some a l) as [b ->]; [rewrite <-Hperm; left|].
    rewrite (IH _ Hnd); [done|].
    rewrite <-Hperm, filter_cons, decide_False by tauto.
    by rewrite filter_other_ids.
Qed.

Lemma adds_valid (l : list address) : Forall call_valid (adds l).
Proof. unfold adds. by apply Forall_fmap, Forall_true. Qed.

Lemma removes_valid (l : list address) : Forall call_valid (removes l).
Proof. unfold removes. by apply Forall_fmap, Forall_true. Qed.

(** An [AddProduct] of an id that is present: refused, whatever the pointer. *)
Lemma exec_rejected_adds (l' : list address) (w : Warehouse.t) :
  idle w →
  (∀ b, b ∈ l' → is_Some (mProductsWithMetasById w !! Product.id (pointee b))) →
  exec (adds l') w = Ok (replicate (length l') (Ret_bool false), w).
Proof.
  intros Hm. induction l' as [|b l' IH]; intros Hl'; [done|].
  destruct (Hl' b) as [e He]; [left|].
  eapply exec_cons.
  - unfold Warehouse.invoke. by rewrite run_bind, (run_AddProduct_dup b w e Hm He).
  - apply IH. intros c Hc. apply Hl'. by right.
Qed.

(** X8. [AddProduct]s of products of ids that differ, on an empty warehouse,
    all return [true]; afterwards an [AddProduct] of any product whose id is
    one of theirs returns [false] and changes nothing, [FindProductById] of
    the id of each of them returns its pointer, and [FindProductsByProducer]
    writes, for any producer, the products of that producer among them, in
    the order in which they were added, and returns their number modulo
    [SIZE_MAX + 1]. *)
Theorem distinct_adds_then_duplicates (l l' : list address) :
  NoDup ((λ a, Product.id (pointee a)) <$> l) →
  (∀ b, b ∈ l' → ∃ a, a ∈ l ∧ Product.id (pointee b) = Product.id (pointee a)) →
  ∃ w, exec (adds l) Warehouse.empty = Ok (replicate (length l) (Ret_bool true), w)
       ∧ exec (adds l') w = Ok (replicate (length l') (Ret_bool false), w)
       ∧ (∀ a, a ∈ l →
            run (FindProductById (Product.id (pointee a))) w = Ok (Some a, w))
       ∧ (∀ producer out,
            run (FindProductsByProducer producer out) w
            = Ok ((Z.of_nat
                     (length (filter (λ a, Product.producer (pointee a) = producer) l))
                   mod SIZE_MAX1,
                   out ++ (Some <$> filter (λ a, Product.producer (pointee a) = producer) l)),
                  w)).
Proof.
  intros Hnd Hdup.
  destruct (exec_total (adds l) Warehouse.empty) as (rs & w & Hexec);
    [done|apply consistent_empty|apply adds_valid|].
  destruct (exec_represented (adds l) [] Warehouse.empty) as (Hok & _ & _);
    [done|apply consistent_empty|apply represents_empty|].
  destruct (Hok rs w Hexec) as (l1 & Hlist & Hrep).
  rewrite (list_exec_adds l []) in Hlist by done. injection Hlist as <- <-.
  destruct (reachable_consistent _ _ _ Hexec) as [Hm Hc].
  destruct Hrep as (_ & Hin & Hgroup).
  exists w. split; [done|]. split; [|split].
  - apply exec_rejected_adds; [done|]. intros b (a & Ha & Hid)%Hdup.
    apply Hin in Ha. destruct (present_node w a Hc Ha) as (i & _ & He).
    rewrite Hid, He. eauto.
  - intros a Ha%Hin. rewrite (run_FindProductById _ _ Hm).
    by apply present_lookup_id in Ha as ->.
  - intros producer out.
    rewrite (run_FindProductsByProducer producer out w Hm (consistent_wf _ _ Hc)).
    by rewrite <-(length_fmap second (group producer w)), Hgroup, length_fmap.
Qed.

(** X9. [AddProduct]s of products of ids that differ, on an empty warehouse,
    followed by the [RemoveProductById] of each of these ids, in any order:
    the additions return [true], the removals 1, and the warehouse is left
    as a default-constructed one. *)
Theorem add_all_remove_all (l l' : list address) :
  NoDup ((λ a, Product.id (pointee a)) <$> l) →
  l' ≡ₚ l →
  exec (adds l ++ removes l') Warehouse.empty
  = Ok (replicate (length l) (Ret_bool true) ++ replicate (length l') (Ret_count 1),
        Warehouse.empty).
Proof.
  intros Hnd Hperm.
  destruct (exec_total (adds l ++ removes l') Warehouse.empty) as (rs & w & Hexec);
    [done|apply consistent_empty| |].
  { apply Forall_app. split; [apply adds_valid|apply removes_valid]. }
  destruct (exec_represented (adds l ++ removes l') [] Warehouse.empty)
    as (Hok & _ & _); [done|apply consistent_empty|apply represents_empty|].
  destruct (Hok rs w Hexec) as (l1 & Hlist & Hrep).
  rewrite (list_exec_app _ _ _ _ _ _ _ (list_exec_adds l [] Hnd)
             (list_exec_removes l' l ltac:(by rewrite Hperm) Hperm)) in Hlist.
  injection Hlist as <- <-.
  destruct (reachable_consistent _ _ _ Hexec) as [Hm Hc].
  rewrite Hexec. do 2 f_equal. apply nothing_present_empty; [done..|].
  intros a Ha. apply Hrep in Ha. by apply elem_of_nil in Ha.
Qed.

Lemma filter_agree {A} (P Q : A → Prop) `{!∀ x, Decision (P x)}
    `{!∀ x, Decision (Q x)} (l : list A) :
  (∀ x, x ∈ l → P x ↔ Q x) → filter P l = filter Q l.
Proof.
  induction l as [|x l IH]; intros Hpq; [done|].
  rewrite !filter_cons, IH by (intros y Hy; apply Hpq; by right).
  destruct (decide (P x)) as [HP|HP], (decide (Q x)) as [HQ|HQ]; try done.
  - destruct HQ. by apply (Hpq x); [left|].
  - destruct HP. by apply (Hpq x); [left|].
Qed.

Lemma ids_differ (l : list address) (a b : address) :
  NoDup ((λ a, Product.id (pointee a)) <$> l) → a ∈ l → b ∈ l →
  Product.id (pointee a) = Product.id (pointee b) → a = b.
Proof.
  induction l as [|c l IH]; [by intros _ ?%elem_of_nil|].
  rewrite fmap_cons. intros [Hc Hnd]%NoDup_cons Ha Hb Hid.
  apply elem_of_cons in Ha as [->|Ha], Hb as [->|Hb]; [done| | |by apply IH].
  - destruct Hc. rewrite Hid.
    by apply (list_elem_of_fmap_2 (λ a, Product.id (pointee a))).
  - destruct Hc. rewrite <-Hid.
    by apply (list_elem_of_fmap_2 (λ a, Product.id (pointee a))).
Qed.

(** On the list: removing some of its products leaves the others, in their
    order. *)
Lemma list_exec_removes_some (l1 : list address) :
  ∀ l, NoDup ((λ a, Product.id (pointee a)) <$> l) → NoDup l1 → l1 ⊆ l →
  list_exec (removes l1) l
  = Some (replicate (length l1) (Ret_count 1), filter (λ a, a ∉ l1) l).
Proof.
  unfold removes. induction l1 as [|a l1 IH]; intros l Hids Hnd Hsub.
  - cbn [fmap list_fmap list_exec length replicate]. do 2 f_equal.
    clear. induction l as [|x l IH]; [done|].
    rewrite filter_cons, decide_True by apply not_elem_of_nil. by rewrite <-IH.
  - apply NoDup_cons in Hnd as [Ha Hnd].
    assert (a ∈ l) as Hal by (apply Hsub; left).
    rewrite fmap_cons. cbn [list_exec list_call length replicate].
    destruct (list_find_is_Some a l Hal) as [b ->].
    rewrite (IH (filter (λ b, Product.id (pointee b) ≠ Product.id (pointee a)) l)).
    + do 2 f_equal. rewrite list_filter_filter. apply filter_agree.
      intros x Hx. rewrite not_elem_of_cons. split.
      * intros [Hx1 Hid]. split; [|done]. by intros ->.
      * intros [Hxa Hx1]. split; [done|]. intros Hid. destruct Hxa.
        by apply (ids_differ l).
    + eapply sublist_NoDup; [exact Hids|]. apply fmap_sublist, sublist_filter.
    + done.
    + intros x Hx. apply list_elem_of_filter. split; [|apply Hsub; by right].
      intros Hid. destruct Ha.
      by rewrite <-(ids_differ l x a Hids ltac:(apply Hsub; by right) Hal Hid).
Qed.

(** X12. [AddProduct]s of products of ids that differ, on an empty
    warehouse, followed by the [RemoveProductById] of the ids of some of
    them, each once: the additions return [true] and the removals 1;
    afterwards [FindProductById] of the id of a removed product returns the
    empty pointer and that of another one returns its pointer, and
    [FindProductsByProducer] writes, for any producer, the products of that
    producer that were not removed, in the order in which they were added,
    and returns their number modulo [SIZE_MAX + 1]. *)
Theorem removes_leave_the_rest (l l1 : list address) :
  NoDup ((λ a, Product.id (pointee a)) <$> l) →
  NoDup l1 →
  l1 ⊆ l →
  ∃ w, exec (adds l ++ removes l1) Warehouse.empty
       = Ok (replicate (length l) (Ret_bool true)
             ++ replicate (length l1) (Ret_count 1), w)
       ∧ (∀ a, a ∈ l →
            run (FindProductById (Product.id (pointee a))) w
            = Ok ((if decide (a ∈ l1) then None else Some a), w))
       ∧ (∀ producer out,
            run (FindProductsByProducer producer out) w
            = Ok ((Z.of_nat
                     (length (filter (λ a, Product.producer (pointee a) = producer)
                                     (filter (λ a, a ∉ l1) l)))
                   mod SIZE_MAX1,
                   out ++ (Some <$> filter
                                      (λ a, Product.producer (pointee a) = producer)
                                      (filter (λ a, a ∉ l1) l))),
                  w)).
Proof.
  intros Hids Hnd Hsub.
  destruct (exec_total (adds l ++ removes l1) Warehouse.empty) as (rs & w & Hexec);
    [done|apply consistent_empty| |].
  { apply Forall_app. split; [apply adds_valid|apply removes_valid]. }
  destruct (exec_represented (adds l ++ removes l1) [] Warehouse.empty)
    as (Hok & _ & _); [done|apply consistent_empty|apply represents_empty|].
  destruct (Hok rs w Hexec) as (l2 & Hlist & Hrep).
  rewrite (list_exec_app _ _ _ _ _ _ _ (list_exec_adds l [] Hids)
             (list_exec_removes_some l1 l Hids Hnd Hsub)) in Hlist.
  injection Hlist as <- <-.
  destruct (reachable_consistent _ _ _ Hexec) as [Hm Hc].
  destruct Hrep as (_ & Hin & Hgroup).
  exists w. split; [done|]. split.
  - intros a Ha. rewrite (run_FindProductById _ _ Hm). do 2 f_equal.
    destruct (decide (a ∈ l1)) as [Hrem|Hkept].
    + apply lookup_id_None; [done|]. apply absent_iff; [done|].
      intros b Hb%Hin Hid. apply list_elem_of_filter in Hb as [Hb1 Hb].
      destruct Hb1. by rewrite (ids_differ l b a Hids Hb Ha Hid).
    + apply present_lookup_id; [done|]. apply Hin. by apply list_elem_of_filter.
  - intros producer out.
    rewrite (run_FindProductsByProducer producer out w Hm (consistent_wf _ _ Hc)).
    by rewrite <-(length_fmap second (group producer w)), Hgroup, length_fmap.
Qed.

(** ** Calls in flight return *)

(** The thread that holds the mutex finishes its call on its own. *)
Lemma critical_completes (p : prog retval) :
  ∀ (w : Warehouse.t) (ts : list thread) (j : nat) (c : call) (r : retval)
    (w_end : Warehouse.t),
  critical p → mMutex w = true → ts !! j = Some (c, p) →
  run p w = Ok (r, w_end) →
  rtc step (w, ts) (w_end, <[j := (c, Return r)]> ts) ∧ mMutex w_end = false.
Proof.
  induction p as [r0| |k IH|k IH|B f k IH]; intros w ts j c r w_end Hcrit Hm Hj;
    try done.
  - destruct k as [r0| | | |]; try done. cbn [run]. rewrite Hm.
    intros [= <- <-]. split; [|done]. apply rtc_once.
    apply (step_thread pointee w ts j c (Unlock (Return r0))); [done|].
    cbn [thread_step]. by rewrite Hm.
  - destruct Hcrit as [Hkeep Hcrit]. cbn [run].
    destruct (f w) as [[b w1]| |] eqn:Ef; [|done..]. intros Hrun.
    destruct (IH b w1 (<[j := (c, k b)]> ts) j c r w_end) as [Hsteps Hend];
      [done|by rewrite (Hkeep _ _ _ Ef)| |done|].
    { apply list_lookup_insert_eq. by eapply lookup_lt_Some. }
    rewrite list_insert_insert_eq in Hsteps. split; [|done].
    eapply rtc_l; [|exact Hsteps].
    apply (step_thread pointee w ts j c (Access f k)); [done|].
    cbn [thread_step]. by rewrite Ef.
Qed.

(** A thread at the start of its call, with the mutex free, finishes it
    on its own. *)
Lemma call_completes (w : Warehouse.t) (ts : list thread) (i : nat) (c : call) :
  idle w → consistent w → call_valid c → ts !! i = Some (c, invoke c) →
  ∃ r w', rtc step (w, ts) (w', <[i := (c, Return r)]> ts) ∧ mMutex w' = false.
Proof.
  intros Hm Hc Hv Hi.
  destruct (run_invoke c w Hm Hc Hv) as (r & w' & Hrun & _).
  destruct (invoke_critical c Hv) as (k & Hk & Hcrit).
  rewrite Hk in Hi, Hrun. cbn [run] in Hrun. rewrite Hm in Hrun.
  destruct (critical_completes k (set_mutex true w) (<[i := (c, k)]> ts) i c r w')
    as [Hsteps Hend]; [done|done| |done|].
  { apply list_lookup_insert_eq. by eapply lookup_lt_Some. }
  rewrite list_insert_insert_eq in Hsteps.
  exists r, w'. split; [|done]. eapply rtc_l; [|exact Hsteps].
  apply (step_thread pointee w ts i c (Lock k)); [done|].
  cbn [thread_step]. by rewrite Hm.
Qed.

(** With the mutex free, the first [n] threads can be brought to return,
    one after the other; those that have returned stay as they are. *)
Lemma first_threads_return (n : nat) :
  ∀ (w : Warehouse.t) (ts : list thread),
  reachable (w, ts) → mMutex w = false →
  ∃ w' ts',
    rtc step (w, ts) (w', ts') ∧ mMutex w' = false
    ∧ fst <$> ts' = fst <$> ts
    ∧ (∀ i c p, (i < n)%nat → ts' !! i = Some (c, p) → ∃ r, p = Return r)
    ∧ (∀ i c r, ts !! i = Some (c, Return r) → ts' !! i = Some (c, Return r)).
Proof.
  induction n as [|n IH]; intros w ts Hreach Hm.
  { exists w, ts. split; [done|]. split; [done|]. split; [done|].
    split; [|done]. intros; lia. }
  destruct (IH w ts Hreach Hm) as (w1 & ts1 & Hsteps & Hm1 & Hcalls & Hdone & Hkept).
  assert (reachable (w1, ts1)) as Hreach1 by (unfold reachable; by etrans).
  destruct (reachable_invariant _ Hreach1)
    as [[_ [log Hlin]]|(log & w_seq & j & [_ _ _ _ Hheld _ _])];
    simpl in *; [|congruence].
  destruct (ts1 !! n) as [[c p]|] eqn:En; cycle 1.
  { exists w1, ts1. split; [done|]. split; [done|]. split; [done|].
    split; [|done].
    intros i c p Hi Hp. destruct (decide (i = n)) as [->|]; [congruence|].
    apply (Hdone i c p); [lia|done]. }
  destruct (decide (n ∈ log_threads log)) as [Hin|Hnot].
  { apply log_threads_elem in Hin as (c0 & r & Hin).
    apply (lin_returned _ _ _ _ Hlin) in Hin. rewrite En in Hin.
    injection Hin as -> ->.
    exists w1, ts1. split; [done|]. split; [done|]. split; [done|].
    split; [|done].
    intros i c p Hi Hp. destruct (decide (i = n)) as [->|].
    - rewrite En in Hp. injection Hp as <- <-. by exists r.
    - apply (Hdone i c p); [lia|done]. }
  destruct (lin_not_started _ _ _ _ Hlin n c p En Hnot) as [-> Hv].
  destruct (reachable_consistent _ _ _ (lin_exec _ _ _ _ Hlin)) as [_ Hc1].
  destruct (call_completes w1 ts1 n c Hm1 Hc1 Hv En) as (r & w2 & Hsteps2 & Hm2).
  exists w2, (<[n := (c, Return r)]> ts1). split; [by etrans|].
  split; [done|]. split; [|split].
  - rewrite list_fmap_insert, <-Hcalls. apply list_insert_id.
    by rewrite list_lookup_fmap, En.
  - intros i c0 p0 Hi. destruct (decide (i = n)) as [->|Hne].
    + rewrite list_lookup_insert_eq by (by eapply lookup_lt_Some).
      intros [= <- <-]. by exists r.
    + rewrite list_lookup_insert_ne by done. apply Hdone. lia.
  - intros i c0 r0 Hi%Hkept. destruct (decide (i = n)) as [->|Hne].
    + rewrite En in Hi. injection Hi as <- Hp.
      destruct (invoke_critical c Hv) as (k & Hk & _). congruence.
    + by rewrite list_lookup_insert_ne.
Qed.

(** X13. Whatever several threads have made of a default-constructed
    warehouse, and wherever they are in their calls, the threads can go on,
    without a new call being started, until every call has returned and the
    mutex is free: no call in flight is stuck for good, and a call that has
    returned keeps what it returned. *)
Theorem calls_in_flight_return (w : Warehouse.t) (ts : list thread) :
  reachable (w, ts) →
  ∃ w' ts',
    rtc step (w, ts) (w', ts') ∧ mMutex w' = false
    ∧ fst <$> ts' = fst <$> ts
    ∧ (∀ i c p, ts' !! i = Some (c, p) → ∃ r, p = Return r)
    ∧ (∀ i c r, ts !! i = Some (c, Return r) → ts' !! i = Some (c, Return r)).
Proof.
  intros Hreach.
  assert (∃ w1 ts1, rtc step (w, ts) (w1, ts1) ∧ mMutex w1 = false
                    ∧ fst <$> ts1 = fst <$> ts
                    ∧ ∀ i c r, ts !! i = Some (c, Return r) →
                               ts1 !! i = Some (c, Return r))
    as (w1 & ts1 & Hsteps1 & Hm1 & Hcalls1 & Hkept1).
  { destruct (reachable_invariant _ Hreach)
      as [[Hm _]|(log & w_seq & j & [_ Hexec _ _ Hm _ Hth])]; simpl in *.
    { by exists w, ts. }
    destruct Hth as (c & p & Hj & Hv & Hcrit & Hrun).
    destruct (reachable_consistent _ _ _ Hexec) as [Hm_seq Hc_seq].
    destruct (run_invoke c w_seq Hm_seq Hc_seq Hv) as (r & w_end & Hend & _).
    rewrite Hend in Hrun.
    destruct (critical_completes p w ts j c r w_end Hcrit Hm Hj Hrun)
      as [Hsteps Hfree].
    exists w_end, (<[j := (c, Return r)]> ts). split; [done|]. split; [done|].
    split.
    - rewrite list_fmap_insert. apply list_insert_id.
      by rewrite list_lookup_fmap, Hj.
    - intros i c0 r0 Hi. destruct (decide (i = j)) as [->|Hne].
      + rewrite Hj in Hi. injection Hi as <- ->. by destruct Hcrit.
      + by rewrite list_lookup_insert_ne. }
  destruct (first_threads_return (length ts1) w1 ts1)
    as (w2 & ts2 & Hsteps2 & Hm2 & Hcalls2 & Hdone & Hkept2);
    [unfold reachable; by etrans|done|].
  exists w2, ts2. split; [by etrans|]. split; [done|].
  split; [by rewrite Hcalls2|]. split.
  - intros i c p Hi. apply (Hdone i c p); [|done].
    apply lookup_lt_Some in Hi.
    by rewrite <-(length_fmap fst ts1), <-Hcalls2, length_fmap.
  - intros i c r Hi. by apply Hkept2, Hkept1.
Qed.

(** ** The order of the calls in time *)

Lemma schedule_steps (es : list event) (cfg cfg' : Warehouse.t * list thread) :
  schedule es cfg = Some cfg' → rtc step cfg cfg'.
Proof.
  revert cfg. induction es as [|e es IH]; intros cfg.
  - by intros [= <-].
  - simpl. destruct (schedule_step e cfg) as [cfg1|] eqn:E; [|done].
    intros Hrest%IH. eapply rtc_l; [|exact Hrest].
    destruct cfg as [w ts]. destruct e as [i|c]; simpl in E.
    + destruct (ts !! i) as [[c p]|] eqn:Ei; [|done].
      destruct (thread_step p w) as [[w' p']|] eqn:Ep; [|done].
      injection E as <-. by eapply step_thread.
    + destruct c as [[a|]|id|producer|id]; try done; injection E as <-;
        by apply step_spawn.
Qed.

(** A step leaves the log as it is, or puts the call that returns with it
    at its end. *)
Lemma logged_step (cfg cfg' : Warehouse.t * list thread)
    (log : list (nat * call * retval)) :
  logged cfg log → step cfg cfg' →
  ∃ log', logged cfg' log' ∧ log `prefix_of` log'.
Proof.
  intros Hlog Hstep. destruct Hstep as [w ts i c p w' p' Hi Hp|w ts c Hv].
  - destruct Hlog as [[Hm Hlin]|(w_seq & j & Hheld)]; simpl in *.
    + exists log. split; [|done]. right. exists w, i.
      by eapply step_invariant_enter.
    + destruct (step_invariant_holder _ _ _ _ _ _ _ _ _ _ Hheld Hi Hp)
        as [-> [[Hm' [r Hlin]]|Hheld']].
      * exists (log ++ [(j, c, r)]). split; [by left|]. by apply prefix_app_r.
      * exists log. split; [|done]. right. by exists w_seq, j.
  - exists log. split; [|done].
    destruct Hlog as [[Hm [Hnd Hexec Hret Hrest]]|(w_seq & j & [Hnd Hexec Hret Hrest Hm Hj Hth])];
      simpl in *.
    + left. split; [done|]. split; try done.
      * intros i c0 r Hin. apply lookup_app_l_Some. by apply Hret.
      * intros i c0 p [Hi|[_ Hi]]%lookup_app_Some Hnot; [by eapply Hrest|].
        apply list_lookup_singleton_Some in Hi as [_ [= <- <-]]. done.
    + right. exists w_seq, j. split; try done.
      * intros i c0 r Hin. apply lookup_app_l_Some. by apply Hret.
      * intros i c0 p [Hi|[_ Hi]]%lookup_app_Some Hnot Hij; [by eapply Hrest|].
        apply list_lookup_singleton_Some in Hi as [_ [= <- <-]]. done.
      * destruct Hth as (c0 & p & Hp & ?). exists c0, p. split; [|done].
        by apply lookup_app_l_Some.
Qed.

Lemma logged_steps (cfg cfg' : Warehouse.t * list thread) :
  rtc step cfg cfg' →
  ∀ log, logged cfg log → ∃ log', logged cfg' log' ∧ log `prefix_of` log'.
Proof.
  induction 1 as [cfg|cfg cfg1 cfg2 Hstep _ IH]; intros log Hlog.
  - by exists log.
  - destruct (logged_step cfg cfg1 log Hlog Hstep) as (log1 & Hlog1 & Hpre1).
    destruct (IH log1 Hlog1) as (log2 & Hlog2 & Hpre2).
    exists log2. split; [done|]. by etrans.
Qed.

(** X14. The order in which the calls take effect follows their order in
    time: when, at a moment at which the mutex is free, the calls that have
    returned are accounted for by one thread making them in the order of a
    log, then at every later such moment they are accounted for by a log
    that begins with that one, and what the later log has more are calls
    that had not returned at the earlier moment. So a call that had returned
    comes, in the later log, before every call that returned after that
    moment, those started after it among them. *)
Theorem effects_follow_time (w1 w2 : Warehouse.t) (ts1 ts2 : list thread)
    (log1 : list (nat * call * retval)) :
  mMutex w1 = false →
  linearization w1 ts1 log1 →
  rtc step (w1, ts1) (w2, ts2) →
  mMutex w2 = false →
  ∃ log2, linearization w2 ts2 log2
          ∧ log1 `prefix_of` log2
          ∧ ∀ i c r, (i, c, r) ∈ log2 → (i, c, r) ∉ log1 →
                     ∀ r1, ts1 !! i ≠ Some (c, Return r1).
Proof.
  intros Hm1 Hlin1 Hsteps Hm2.
  destruct (logged_steps _ _ Hsteps log1) as (log2 & Hlog2 & Hpre); [by left|].
  destruct Hlog2 as [[_ Hlin2]|(w_seq & j & [_ _ _ _ Hheld _ _])];
    simpl in *; [|congruence].
  exists log2. split; [done|]. split; [done|].
  intros i c r Hin2 Hnot1 r1 Hi.
  destruct (decide (i ∈ log_threads log1)) as [Hin1|Hnot].
  - apply log_threads_elem in Hin1 as (c0 & r0 & Hin1).
    assert ((i, c0, r0) ∈ log2) as Hin2'.
    { destruct Hpre as [k Hk]. rewrite Hk. apply elem_of_app. by left. }
    apply (lin_returned _ _ _ _ Hlin1) in Hin1 as Hts1. rewrite Hi in Hts1.
    injection Hts1 as <- <-.
    apply (lin_returned _ _ _ _ Hlin2) in Hin2 as Hts2.
    apply (lin_returned _ _ _ _ Hlin2) in Hin2' as Hts2'.
    rewrite Hts2 in Hts2'. injection Hts2' as ->. done.
  - destruct (lin_not_started _ _ _ _ Hlin1 i c (Return r1) Hi Hnot) as [Hp Hv].
    destruct (invoke_critical c Hv) as (k & Hk & _). congruence.
Qed.

(** ** What the warehouse does not do *)

Lemma invoke_same_keys (pointee' : address → Product.t) (c : call) :
  (∀ a, Product.id (pointee a) = Product.id (pointee' a)
        ∧ Product.producer (pointee a) = Product.producer (pointee' a)) →
  invoke c = Warehouse.invoke pointee' c.
Proof.
  intros Hkeys. destruct c as [[a|]|id|producer|id]; try done.
  unfold Warehouse.invoke, Warehouse.AddProduct.
  destruct (Hkeys a) as [-> ->]. done.
Qed.

(** X10. The warehouse reads the id and the producer of a product and
    nothing else: with two stores of products that agree on the id and the
    producer at every address, whatever the names and the prices, a
    sequence of calls returns the same and leaves the same state. *)
Theorem only_id_and_producer_are_read (pointee' : address → Product.t)
    (cs : list call) (w : Warehouse.t) :
  (∀ a, Product.id (pointee a) = Product.id (pointee' a)
        ∧ Product.producer (pointee a) = Product.producer (pointee' a)) →
  exec cs w = Warehouse.exec pointee' cs w.
Proof.
  intros Hkeys. revert w. induction cs as [|c cs IH]; intros w; [done|].
  cbn [Warehouse.exec]. rewrite (invoke_same_keys pointee' c Hkeys).
  destruct (run (Warehouse.invoke pointee' c) w) as [[r w1]| |]; [|done..].
  by rewrite IH.
Qed.

Lemma present_origin (a : address) (cs : list call) :
  ∀ (w0 : Warehouse.t) (rs : list retval) (w : Warehouse.t),
  idle w0 → consistent w0 → exec cs w0 = Ok (rs, w) → present a w →
  present a w0
  ∨ ∃ k, cs !! k = Some (Call_AddProduct (Some a)) ∧ rs !! k = Some (Ret_bool true).
Proof.
  induction cs as [|c cs IH]; intros w0 rs w Hm Hc.
  - intros [= _ <-] Ha. by left.
  - intros (r & w1 & rs' & Hrun & Hexec & ->)%exec_cons_inv Ha.
    apply run_invoke_inv in Hrun; [|done..].
    destruct (call_spec_preserves _ _ _ _ Hm Hc Hrun) as [Hm1 Hc1].
    destruct (IH w1 rs' w Hm1 Hc1 Hexec Ha) as [Ha1|(k & Hk & Hr)].
    2:{ right. by exists (S k). }
    destruct Hrun as [b Hb|b e Hb|id|producer|id e i He Hi|id He];
      try (by left).
    + apply (present_added b a w0 Hc Hb) in Ha1 as [->|Ha0]; [|by left].
      right. by exists 0%nat.
    + left. destruct (consistent_entries _ _ Hc _ _ He) as (b & j & Hpb & <- & Hj & _).
      apply (present_removed b a i w0 Hc) in Ha1 as [? _]; [done|].
      rewrite He. destruct e as [? [?]]. simpl in *. congruence.
Qed.

(** X11. In every state that a sequence of calls leaves of an empty
    warehouse, a product that is present was given to an [AddProduct] of
    the sequence that returned [true]: the warehouse holds no product that
    was not added, and none whose addition was refused. *)
Theorem present_was_added (cs : list call) (rs : list retval) (w : Warehouse.t)
    (a : address) :
  exec cs Warehouse.empty = Ok (rs, w) →
  present a w →
  ∃ k, cs !! k = Some (Call_AddProduct (Some a)) ∧ rs !! k = Some (Ret_bool true).
Proof.
  intros Hexec Ha.
  destruct (present_origin a cs Warehouse.empty rs w) as [H0|H]; try done.
  - apply consistent_empty.
  - by apply present_empty in H0.
Qed.

Lemma absent_reachable (cs : list call) (rs : list retval) (w : Warehouse.t)
    (id : string) :
  exec cs Warehouse.empty = Ok (rs, w) →
  mProductsWithMetasById w !! id = None →
  ∀ b, present b w → Product.id (pointee b) ≠ id.
Proof. intros [_ Hc]%reachable_consistent. by apply absent_iff. Qed.

End Proofs.

(** ** The claims on the sample *)

Example sample_exec :
  Warehouse.exec sample_pointee sample_calls Warehouse.empty
  = Ok (sample_rets, sample_state).
Proof. vm_compute. reflexivity. Qed.

Example sample_schedule_runs :
  schedule sample_pointee sample_schedule (Warehouse.empty, []) = Some sample_config.
Proof. vm_compute. reflexivity. Qed.

(** While the first thread is between its two insertions, the second, at its
    [Lock], takes no step. *)
Example sample_second_thread_waits :
  schedule sample_pointee
    [Ev_spawn (Call_AddProduct (Some 1%positive)); Ev_step 0; Ev_step 0;
     Ev_spawn (Call_AddProduct (Some 2%positive)); Ev_step 1]
    (Warehouse.empty, [])
  = None.
Proof. vm_compute. reflexivity. Qed.

(** Between the two insertions of an [AddProduct] the primary index has
    the product and the secondary index has not: the mutex is locked then. *)
Example sample_between_insertions :
  ∃ w ts,
    schedule sample_pointee
      [Ev_spawn (Call_AddProduct (Some 1%positive)); Ev_step 0; Ev_step 0]
      (Warehouse.empty, [])
    = Some (w, ts)
    ∧ lookup_id "id1" w = Some 1%positive
    ∧ mProductsByProducer w = []
    ∧ mMutex w = true.
Proof. eexists _, _. vm_compute. repeat split. Qed.

(** Scenario E, with two threads: both additions are there at the end. *)
Example scenario_E :
  snd <$> sample_config.2 = [Return (Ret_bool true); Return (Ret_bool true)]
  ∧ run (FindProductsByProducer "producerX" []) sample_config.1
    = Ok ((2, [Some 1%positive; Some 2%positive]), sample_config.1)
  ∧ run (FindProductById "id1") sample_config.1 = Ok (Some 1%positive, sample_config.1)
  ∧ run (FindProductById "id2") sample_config.1 = Ok (Some 2%positive, sample_config.1).
Proof. repeat split; vm_compute; reflexivity. Qed.

(** Scenario A of the specification: two products of one producer and one
    of another. *)
Example scenario_A :
  run (FindProductsByProducer "producerX" []) sample_state
  = Ok ((2, [Some 1%positive; Some 2%positive]), sample_state).
Proof. vm_compute. reflexivity. Qed.

(** Scenario B: a second product of the same id is refused, and the first
    stays. *)
Example scenario_B :
  run (Warehouse.AddProduct sample_pointee (Some 4%positive)) sample_state
  = Ok (false, sample_state)
  ∧ run (FindProductById "id1") sample_state = Ok (Some 1%positive, sample_state).
Proof. split; vm_compute; reflexivity. Qed.

(** Scenario C: the empty warehouse. *)
Example scenario_C :
  Warehouse.exec sample_pointee
    [Call_FindProductById "anything"; Call_RemoveProductById "anything";
     Call_FindProductsByProducer "anything"] Warehouse.empty
  = Ok ([Ret_ptr None; Ret_count 0; Ret_found 0 []], Warehouse.empty).
Proof. vm_compute. reflexivity. Qed.

(** Scenario D: a product removed from among the products of its producer. *)
Example scenario_D :
  rets_after
    [Call_RemoveProductById "id1"; Call_FindProductsByProducer "producerX";
     Call_FindProductById "id1"] sample_state
  = [Ret_count 1; Ret_found 1 [Some 2%positive]; Ret_ptr None].
Proof. vm_compute. reflexivity. Qed.

Lemma present_of_lookup_id (a : address) (id : string) (w : Warehouse.t) :
  lookup_id id w = Some a → present a w.
Proof.
  unfold lookup_id, present.
  destruct (mProductsWithMetasById w !! id) as [e|] eqn:E; [|done]. eauto.
Qed.

(** C1 on the sample state, for the producer of two of its products. *)
Lemma FindProductsByProducer_exact_witness :
  ∃ (cntFound : Z) (written : list ProductPtr),
    run (FindProductsByProducer "producerX" []) sample_state
    = Ok ((cntFound, [] ++ written), sample_state)
    ∧ NoDup written
    ∧ (∀ p : ProductPtr,
         p ∈ written
         ↔ ∃ a, p = Some a ∧ present a sample_state
                ∧ Product.producer (sample_pointee a) = "producerX")
    ∧ (multimap.size (mProductsByProducer sample_state) < SIZE_MAX1 →
       cntFound = Z.of_nat (length written))
    ∧ ((∀ a, present a sample_state →
             Product.producer (sample_pointee a) ≠ "producerX") →
       cntFound = 0 ∧ written = []).
Proof.
  apply (FindProductsByProducer_exact sample_pointee sample_calls sample_rets).
  vm_compute. reflexivity.
Defined.

(** C2 on the sample state. *)
Lemma cross_index_consistency_witness :
  (∀ k e, mProductsWithMetasById sample_state !! k = Some e → ∃ a, pProduct e = Some a)
  ∧ (∀ a, present a sample_state →
       ∃ i, nodes_of a sample_state
            = [Node i (Product.producer (sample_pointee a)) (Some a)]
            ∧ slots_of a sample_state
              = [(Product.id (sample_pointee a),
                  {| pProduct := Some a;
                     meta := {| it_productsByProducer := at_node i |} |})])
  ∧ (∀ n, n ∈ mProductsByProducer sample_state →
          ∃ a, second n = Some a ∧ present a sample_state).
Proof.
  apply (cross_index_consistency sample_pointee sample_calls sample_rets).
  vm_compute. reflexivity.
Defined.

(** C3 on the sample state, for a product whose id is taken. *)
Lemma AddProduct_inserts_or_rejects_witness :
  ((∀ b, present b sample_state →
         Product.id (sample_pointee b) ≠ Product.id (sample_pointee 4%positive)) →
     ∃ w', run (Warehouse.AddProduct sample_pointee (Some 4%positive)) sample_state
           = Ok (true, w')
           ∧ run (FindProductById (Product.id (sample_pointee 4%positive))) w'
             = Ok (Some 4%positive, w')
           ∧ ∃ cntFound out,
               run (FindProductsByProducer
                      (Product.producer (sample_pointee 4%positive)) []) w'
               = Ok ((cntFound, out), w')
               ∧ Some 4%positive ∈ out)
  ∧ (∀ b, present b sample_state →
       Product.id (sample_pointee b) = Product.id (sample_pointee 4%positive) →
       run (Warehouse.AddProduct sample_pointee (Some 4%positive)) sample_state
       = Ok (false, sample_state)
       ∧ run (FindProductById (Product.id (sample_pointee 4%positive))) sample_state
         = Ok (Some b, sample_state))
  ∧ (∀ b c, present b sample_state → present c sample_state →
       Product.id (sample_pointee b) = Product.id (sample_pointee c) → b = c).
Proof.
  apply (AddProduct_inserts_or_rejects sample_pointee sample_calls sample_rets).
  vm_compute. reflexivity.
Defined.

(** C4 on the sample state, for the id of a present product. *)
Lemma RemoveProductById_removes_or_ignores_witness :
  (∀ a, present a sample_state → Product.id (sample_pointee a) = "id1" →
     ∃ w', run (RemoveProductById "id1") sample_state = Ok (1, w')
           ∧ run (FindProductById "id1") w' = Ok (None, w')
           ∧ (∃ cntFound out,
                run (FindProductsByProducer (Product.producer (sample_pointee a)) []) w'
                = Ok ((cntFound, out), w')
                ∧ Some a ∉ out)
           ∧ ¬ present a w'
           ∧ nodes_of a w' = [])
  ∧ ((∀ a, present a sample_state → Product.id (sample_pointee a) ≠ "id1") →
       run (RemoveProductById "id1") sample_state = Ok (0, sample_state))
  ∧ (∃ n w', run (RemoveProductById "id1") sample_state = Ok (n, w')
             ∧ (n = 0 ∨ n = 1)).
Proof.
  apply (RemoveProductById_removes_or_ignores sample_pointee sample_calls sample_rets).
  vm_compute. reflexivity.
Defined.

(** C5 on the sample calls, for an id they added and did not remove. *)
Lemma FindProductById_tracks_history_witness :
  ∃ p : ProductPtr,
    run (FindProductById "id1") sample_state = Ok (p, sample_state)
    ∧ (p ≠ None
       ↔ last_change sample_pointee "id1" sample_calls sample_rets None = Some Added).
Proof.
  apply (FindProductById_tracks_history sample_pointee sample_calls sample_rets).
  vm_compute. reflexivity.
Defined.

(** C6 on the sample state, for its first product. *)
Lemma RemoveProductById_idempotent_witness :
  ∃ w', run (RemoveProductById (Product.id (sample_pointee 1%positive))) sample_state
        = Ok (1, w')
        ∧ run (RemoveProductById (Product.id (sample_pointee 1%positive))) w'
          = Ok (0, w')
        ∧ Warehouse.exec sample_pointee
            [Call_RemoveProductById (Product.id (sample_pointee 1%positive));
             Call_RemoveProductById (Product.id (sample_pointee 1%positive));
             Call_RemoveProductById (Product.id (sample_pointee 1%positive))]
            sample_state
          = Ok ([Ret_count 1; Ret_count 0; Ret_count 0], w').
Proof.
  apply (RemoveProductById_idempotent sample_pointee sample_calls sample_rets).
  - vm_compute. reflexivity.
  - apply (present_of_lookup_id 1%positive "id1"). vm_compute. reflexivity.
Defined.

(** C7 on the sample state. *)
Lemma negative_outcomes_are_values_witness :
  (∀ a b, present b sample_state →
     Product.id (sample_pointee b) = Product.id (sample_pointee a) →
     run (Warehouse.AddProduct sample_pointee (Some a)) sample_state
     = Ok (false, sample_state))
  ∧ (∀ id, (∀ b, present b sample_state → Product.id (sample_pointee b) ≠ id) →
       run (RemoveProductById id) sample_state = Ok (0, sample_state)
       ∧ run (FindProductById id) sample_state = Ok (None, sample_state))
  ∧ (∀ producer out,
       (∀ b, present b sample_state →
             Product.producer (sample_pointee b) ≠ producer) →
       run (FindProductsByProducer producer out) sample_state
       = Ok ((0, out), sample_state))
  ∧ run (Warehouse.AddProduct sample_pointee None) sample_state = AssertionFailure
  ∧ (∀ c, call_valid c →
          ∃ r w', run (Warehouse.invoke sample_pointee c) sample_state = Ok (r, w'))
  ∧ (∀ c, (∀ r w', run (Warehouse.invoke sample_pointee c) sample_state ≠ Ok (r, w'))
          ↔ c = Call_AddProduct None).
Proof.
  apply (negative_outcomes_are_values sample_pointee sample_calls sample_rets).
  vm_compute. reflexivity.
Defined.

(** C9: product 1 is added after product 3, then come an addition, a
    refused addition and the removal of product 3. *)
Lemma handle_identity_witness :
  run (FindProductById (Product.id (sample_pointee 1%positive)))
      (state_after [Call_AddProduct (Some 2%positive);
                    Call_AddProduct (Some 4%positive);
                    Call_RemoveProductById "id3"]
         (state_after [Call_AddProduct (Some 1%positive)]
            (state_after [Call_AddProduct (Some 3%positive)] Warehouse.empty)))
  = Ok (Some 1%positive,
        state_after [Call_AddProduct (Some 2%positive);
                     Call_AddProduct (Some 4%positive);
                     Call_RemoveProductById "id3"]
          (state_after [Call_AddProduct (Some 1%positive)]
             (state_after [Call_AddProduct (Some 3%positive)] Warehouse.empty)))
  ∧ ∃ cntFound out,
      run (FindProductsByProducer (Product.producer (sample_pointee 1%positive)) [])
          (state_after [Call_AddProduct (Some 2%positive);
                        Call_AddProduct (Some 4%positive);
                        Call_RemoveProductById "id3"]
             (state_after [Call_AddProduct (Some 1%positive)]
                (state_after [Call_AddProduct (Some 3%positive)] Warehouse.empty)))
      = Ok ((cntFound, out),
            state_after [Call_AddProduct (Some 2%positive);
                         Call_AddProduct (Some 4%positive);
                         Call_RemoveProductById "id3"]
              (state_after [Call_AddProduct (Some 1%positive)]
                 (state_after [Call_AddProduct (Some 3%positive)] Warehouse.empty)))
      ∧ Some 1%positive ∈ out.
Proof.
  apply (handle_identity sample_pointee
           [Call_AddProduct (Some 3%positive)] [Ret_bool true]
           (state_after [Call_AddProduct (Some 3%positive)] Warehouse.empty)
           1%positive
           (state_after [Call_AddProduct (Some 1%positive)]
              (state_after [Call_AddProduct (Some 3%positive)] Warehouse.empty))
           [Call_AddProduct (Some 2%positive); Call_AddProduct (Some 4%positive);
            Call_RemoveProductById "id3"]
           [Ret_bool true; Ret_bool false; Ret_count 1]).
  - vm_compute. reflexivity.
  - vm_compute. reflexivity.
  - vm_compute. reflexivity.
  - intros Hin. repeat (apply elem_of_cons in Hin as [Hin|Hin]; [discriminate|]).
    by apply elem_of_nil in Hin.
Defined.

(** C10 on the sample state, for the removal of its first product. *)
Lemma add_remove_frame_witness :
  (∀ y, y ≠ Product.id (sample_pointee 1%positive) →
     ∃ p, run (FindProductById y) sample_state = Ok (p, sample_state)
          ∧ run (FindProductById y)
                (state_after [Call_RemoveProductById "id1"] sample_state)
            = Ok (p, state_after [Call_RemoveProductById "id1"] sample_state))
  ∧ (∀ producer out, producer ≠ Product.producer (sample_pointee 1%positive) →
       ∃ found,
         run (FindProductsByProducer producer out) sample_state
         = Ok (found, sample_state)
         ∧ run (FindProductsByProducer producer out)
               (state_after [Call_RemoveProductById "id1"] sample_state)
           = Ok (found, state_after [Call_RemoveProductById "id1"] sample_state))
  ∧ (present 1%positive sample_state →
     ∃ cntFound cntFound' written,
       run (FindProductsByProducer (Product.producer (sample_pointee 1%positive)) [])
           sample_state
       = Ok ((cntFound, written), sample_state)
       ∧ run (FindProductsByProducer (Product.producer (sample_pointee 1%positive)) [])
             (state_after [Call_RemoveProductById "id1"] sample_state)
         = Ok ((cntFound', filter (λ p, p ≠ Some 1%positive) written),
               state_after [Call_RemoveProductById "id1"] sample_state)).
Proof.
  apply (add_remove_frame sample_pointee sample_calls sample_rets).
  - vm_compute. reflexivity.
  - right. split.
    + apply (present_of_lookup_id 1%positive "id1"). vm_compute. reflexivity.
    + vm_compute. reflexivity.
Defined.

(** C8 on what the sample schedule leaves of two threads. *)
Lemma concurrent_calls_atomic_witness :
  (∀ i c p, sample_config.2 !! i = Some (c, p) → in_critical_section p →
     mMutex sample_config.1 = true
     ∧ ∀ j c' p', sample_config.2 !! j = Some (c', p') →
                  in_critical_section p' → j = i)
  ∧ (∀ i c p, sample_config.2 !! i = Some (c, p) → mMutex sample_config.1 = true →
       is_Some (thread_step p sample_config.1) → in_critical_section p)
  ∧ (∀ i c p, sample_config.2 !! i = Some (c, p) → (∀ r, p ≠ Return r) →
       ∃ j c' p', sample_config.2 !! j = Some (c', p')
                  ∧ is_Some (thread_step p' sample_config.1))
  ∧ (mMutex sample_config.1 = false →
     consistent sample_pointee sample_config.1
     ∧ ∃ log, linearization sample_pointee sample_config.1 sample_config.2 log)
  ∧ (∀ addrs : list address,
       fst <$> sample_config.2 = (λ a, Call_AddProduct (Some a)) <$> addrs →
       NoDup ((λ a, Product.id (sample_pointee a)) <$> addrs) →
       Z.of_nat (length addrs) < SIZE_MAX1 →
       (∀ i c p, sample_config.2 !! i = Some (c, p) → ∃ r, p = Return r) →
       (∀ i c p, sample_config.2 !! i = Some (c, p) → p = Return (Ret_bool true))
       ∧ (∀ a, a ∈ addrs →
            run (FindProductById (Product.id (sample_pointee a))) sample_config.1
            = Ok (Some a, sample_config.1))
       ∧ (∀ producer, ∃ written,
            run (FindProductsByProducer producer []) sample_config.1
            = Ok ((Z.of_nat (length written), written), sample_config.1)
            ∧ written
              ≡ₚ Some <$> filter (λ a, Product.producer (sample_pointee a) = producer)
                            addrs)).
Proof.
  apply (concurrent_calls_atomic sample_pointee).
  apply (schedule_reachable sample_pointee sample_schedule (Warehouse.empty, [])).
  - apply rtc_refl.
  - vm_compute. reflexivity.
Defined.

(** ** The further properties on the sample *)

(** X1: product 2 is added to a warehouse that holds product 1, of the same
    producer. *)
Lemma AddProduct_appends_to_group_witness :
  ∃ cntFound cntFound' written,
    run (FindProductsByProducer (Product.producer (sample_pointee 2%positive)) [])
        (state_after [Call_AddProduct (Some 1%positive)] Warehouse.empty)
    = Ok ((cntFound, [] ++ written),
          state_after [Call_AddProduct (Some 1%positive)] Warehouse.empty)
    ∧ run (FindProductsByProducer (Product.producer (sample_pointee 2%positive)) [])
          (state_after [Call_AddProduct (Some 1%positive);
                        Call_AddProduct (Some 2%positive)] Warehouse.empty)
      = Ok ((cntFound', [] ++ written ++ [Some 2%positive]),
            state_after [Call_AddProduct (Some 1%positive);
                         Call_AddProduct (Some 2%positive)] Warehouse.empty).
Proof.
  apply (AddProduct_appends_to_group sample_pointee
           [Call_AddProduct (Some 1%positive)] [Ret_bool true]).
  - vm_compute. reflexivity.
  - vm_compute. reflexivity.
Defined.

(** X2: product 2 is added to a warehouse that holds product 1, and removed. *)
Lemma add_then_remove_restores_witness :
  Warehouse.exec sample_pointee
    [Call_AddProduct (Some 2%positive);
     Call_RemoveProductById (Product.id (sample_pointee 2%positive))]
    (state_after [Call_AddProduct (Some 1%positive)] Warehouse.empty)
  = Ok ([Ret_bool true; Ret_count 1],
        state_after [Call_AddProduct (Some 1%positive)] Warehouse.empty).
Proof.
  apply (add_then_remove_restores sample_pointee
           [Call_AddProduct (Some 1%positive)] [Ret_bool true]).
  - vm_compute. reflexivity.
  - apply (absent_reachable sample_pointee
             [Call_AddProduct (Some 1%positive)] [Ret_bool true]).
    + vm_compute. reflexivity.
    + vm_compute. reflexivity.
Defined.

(** X3: in the sample state product 1 is replaced by product 4, of the same id. *)
Lemma remove_then_add_replaces_witness :
  ∃ w', Warehouse.exec sample_pointee
          [Call_RemoveProductById (Product.id (sample_pointee 1%positive));
           Call_AddProduct (Some 4%positive)] sample_state
        = Ok ([Ret_count 1; Ret_bool true], w')
        ∧ run (FindProductById (Product.id (sample_pointee 1%positive))) w'
          = Ok (Some 4%positive, w')
        ∧ (1%positive ≠ 4%positive → ¬ present 1%positive w').
Proof.
  apply (remove_then_add_replaces sample_pointee sample_calls sample_rets).
  - vm_compute. reflexivity.
  - apply (present_of_lookup_id 1%positive "id1"). vm_compute. reflexivity.
  - reflexivity.
Defined.

(** X4 on the sample state. *)
Lemma indexes_same_size_witness :
  length (mProductsByProducer sample_state)
  = base.size (mProductsWithMetasById sample_state).
Proof.
  apply (indexes_same_size sample_pointee sample_calls sample_rets).
  vm_compute. reflexivity.
Defined.

(** X5: product 1 is added and removed. *)
Lemma emptied_warehouse_is_empty_witness :
  state_after [Call_AddProduct (Some 1%positive); Call_RemoveProductById "id1"]
    Warehouse.empty
  = Warehouse.empty.
Proof.
  apply (emptied_warehouse_is_empty sample_pointee
           [Call_AddProduct (Some 1%positive); Call_RemoveProductById "id1"]
           [Ret_bool true; Ret_count 1]).
  - vm_compute. reflexivity.
  - intros a.
    replace (state_after [Call_AddProduct (Some 1%positive);
                          Call_RemoveProductById "id1"] Warehouse.empty)
      with Warehouse.empty by (vm_compute; reflexivity).
    apply present_empty.
Defined.

(** X6 on the sample state. *)
Lemma queries_agree_witness :
  (∀ id a, run (FindProductById id) sample_state = Ok (Some a, sample_state) →
     Product.id (sample_pointee a) = id
     ∧ ∃ cntFound out,
         run (FindProductsByProducer (Product.producer (sample_pointee a)) [])
             sample_state
         = Ok ((cntFound, out), sample_state)
         ∧ Some a ∈ out)
  ∧ (∀ producer cntFound out p,
       run (FindProductsByProducer producer []) sample_state
       = Ok ((cntFound, out), sample_state) →
       p ∈ out →
       ∃ a, p = Some a
            ∧ Product.producer (sample_pointee a) = producer
            ∧ run (FindProductById (Product.id (sample_pointee a))) sample_state
              = Ok (Some a, sample_state)).
Proof.
  apply (queries_agree sample_pointee sample_calls sample_rets).
  vm_compute. reflexivity.
Defined.

(** X8: products 1, 3 and 2 are added, then products 4 and 1, whose id is
    that of product 1. *)
Lemma distinct_adds_then_duplicates_witness :
  ∃ w, Warehouse.exec sample_pointee (adds [1; 3; 2]%positive) Warehouse.empty
       = Ok (replicate (length [1; 3; 2]%positive) (Ret_bool true), w)
       ∧ Warehouse.exec sample_pointee (adds [4; 1]%positive) w
         = Ok (replicate (length [4; 1]%positive) (Ret_bool false), w)
       ∧ (∀ a, a ∈ [1; 3; 2]%positive →
            run (FindProductById (Product.id (sample_pointee a))) w = Ok (Some a, w))
       ∧ (∀ producer out,
            run (FindProductsByProducer producer out) w
            = Ok ((Z.of_nat
                     (length (filter (λ a, Product.producer (sample_pointee a) = producer)
                                     [1; 3; 2]%positive))
                   mod SIZE_MAX1,
                   out ++ (Some <$> filter
                                      (λ a, Product.producer (sample_pointee a) = producer)
                                      [1; 3; 2]%positive)),
                  w)).
Proof.
  apply (distinct_adds_then_duplicates sample_pointee).
  - apply (bool_decide_unpack _). vm_compute. exact I.
  - intros b Hb. exists 1%positive. split; [left|].
    apply elem_of_cons in Hb as [->|Hb]; [reflexivity|].
    apply list_elem_of_singleton in Hb as ->. reflexivity.
Defined.

(** X9: products 1, 3 and 2 are added, and removed in the order 2, 1, 3. *)
Lemma add_all_remove_all_witness :
  Warehouse.exec sample_pointee
    (adds [1; 3; 2]%positive ++ removes sample_pointee [2; 1; 3]%positive)
    Warehouse.empty
  = Ok (replicate (length [1; 3; 2]%positive) (Ret_bool true)
        ++ replicate (length [2; 1; 3]%positive) (Ret_count 1),
        Warehouse.empty).
Proof.
  apply (add_all_remove_all sample_pointee).
  - apply (bool_decide_unpack _). vm_compute. exact I.
  - etrans; [apply perm_swap|]. apply perm_skip, perm_swap.
Defined.

(** X10: the sample calls on the sample products and on the renamed ones. *)
Lemma only_id_and_producer_are_read_witness :
  Warehouse.exec sample_pointee sample_calls Warehouse.empty
  = Warehouse.exec sample_renamed sample_calls Warehouse.empty.
Proof.
  apply (only_id_and_producer_are_read sample_pointee sample_renamed).
  intros a. split; reflexivity.
Defined.

(** X11: product 1 in the sample state. *)
Lemma present_was_added_witness :
  ∃ k, sample_calls !! k = Some (Call_AddProduct (Some 1%positive))
       ∧ sample_rets !! k = Some (Ret_bool true).
Proof.
  apply (present_was_added sample_pointee sample_calls sample_rets sample_state).
  - vm_compute. reflexivity.
  - apply (present_of_lookup_id 1%positive "id1"). vm_compute. reflexivity.
Defined.

(** X12: products 1, 3 and 2 are added, and product 3 is removed. *)
Lemma removes_leave_the_rest_witness :
  ∃ w, Warehouse.exec sample_pointee
         (adds [1; 3; 2]%positive ++ removes sample_pointee [3]%positive)
         Warehouse.empty
       = Ok (replicate (length [1; 3; 2]%positive) (Ret_bool true)
             ++ replicate (length [3]%positive) (Ret_count 1), w)
       ∧ (∀ a, a ∈ [1; 3; 2]%positive →
            run (FindProductById (Product.id (sample_pointee a))) w
            = Ok ((if decide (a ∈ [3]%positive) then None else Some a), w))
       ∧ (∀ producer out,
            run (FindProductsByProducer producer out) w
            = Ok ((Z.of_nat
                     (length (filter (λ a, Product.producer (sample_pointee a) = producer)
                                     (filter (λ a, a ∉ [3]%positive)
                                             [1; 3; 2]%positive)))
                   mod SIZE_MAX1,
                   out ++ (Some <$> filter
                                      (λ a, Product.producer (sample_pointee a) = producer)
                                      (filter (λ a, a ∉ [3]%positive)
                                              [1; 3; 2]%positive))),
                  w)).
Proof.
  apply (removes_leave_the_rest sample_pointee).
  - apply (bool_decide_unpack _). vm_compute. exact I.
  - apply (bool_decide_unpack _). vm_compute. exact I.
  - intros x Hx. apply list_elem_of_singleton in Hx as ->. right. left.
Defined.

(** X13: the two threads of the sample, midway. *)
Lemma calls_in_flight_return_witness :
  ∃ w' ts',
    rtc (step sample_pointee) (sample_midway.1, sample_midway.2) (w', ts')
    ∧ mMutex w' = false
    ∧ fst <$> ts' = fst <$> sample_midway.2
    ∧ (∀ i c p, ts' !! i = Some (c, p) → ∃ r, p = Return r)
    ∧ (∀ i c r, sample_midway.2 !! i = Some (c, Return r) →
                ts' !! i = Some (c, Return r)).
Proof.
  apply (calls_in_flight_return sample_pointee).
  apply (schedule_reachable sample_pointee
           [Ev_spawn (Call_AddProduct (Some 1%positive)); Ev_step 0; Ev_step 0;
            Ev_spawn (Call_AddProduct (Some 2%positive))]
           (Warehouse.empty, [])).
  - apply rtc_refl.
  - vm_compute. reflexivity.
Defined.

(** X14: the first thread of the sample has returned before the second is
    started. *)
Lemma effects_follow_time_witness :
  ∃ log2, linearization sample_pointee sample_both_returned.1 sample_both_returned.2 log2
          ∧ [(0%nat, Call_AddProduct (Some 1%positive), Ret_bool true)] `prefix_of` log2
          ∧ ∀ i c r, (i, c, r) ∈ log2 →
                     (i, c, r) ∉ [(0%nat, Call_AddProduct (Some 1%positive), Ret_bool true)] →
                     ∀ r1, sample_first_returned.2 !! i ≠ Some (c, Return r1).
Proof.
  apply (effects_follow_time sample_pointee sample_first_returned.1).
  - vm_compute. reflexivity.
  - split.
    + apply (bool_decide_unpack _). vm_compute. exact I.
    + vm_compute. reflexivity.
    + intros i c r Hin. apply list_elem_of_singleton in Hin.
      injection Hin as -> -> ->. vm_compute. reflexivity.
    + intros [|i] c p Hi Hnot; [|by destruct i].
      destruct Hnot. left.
  - apply (schedule_steps sample_pointee sample_second_schedule).
    vm_compute. reflexivity.
  - vm_compute. reflexivity.
Defined.
